(** * clustertest: the convenience wrapper, the Docker cluster and the
    node agent's process execution engine

    Definitions come first, package by package, then the facts:
    - [Go]         : the Go values the packages share (multi-value returns,
                     [error] values, panics);
    - [Basic]      : package [cluster], [BasicCluster] and [BasicNode];
    - [Docker]     : package [cluster/docker], [NewCluster] and [NewNodes],
                     as programs over the calls they make to collaborators;
    - [Engine]     : the node agent's process execution engine, with the
                     cases of [TestCommand];
    - [Agent]      : the agent's startup inputs and liveness supervisor;
    - [DockerSpec], [EngineSpec], [BasicSpec] : the properties stated;
    - [BasicFacts], [DockerFacts], [EngineFacts] : their proofs.

    Go's [int] is modelled by [Z]: the code adds only node counts to it.
    A [context.Context] is handed on unchanged to every collaborator and
    is left out; what a cancelled context causes is part of what the
    collaborator answers. *)

From Stdlib Require Import ZArith List String Ascii Bool Lia Arith.
From Stdlib.Strings Require Import Byte.
From Stdlib Require Import DecimalString.
Import ListNotations.

Set Implicit Arguments.

(* ===================================================================== *)
(** * Go values shared by the packages                                    *)
(* ===================================================================== *)

Module Go.

(** A Go [error] value.  [errors.New(msg)] and the errors handed back by
    collaborators are [ErrNew]; [fmt.Errorf(format, args...)] keeps its
    format string and its operands, so that a [%w] operand stays
    recognisable as the wrapped error (which may be the nil error). *)
Inductive error : Type :=
| ErrNew (msg : string)
| Errorf (format : string) (args : list fmtarg)
with fmtarg : Type :=
| ArgInt (z : Z)
| ArgStr (s : string)
| ArgErr (e : option error).

(** The nil error is [None]. *)
Definition go_error := option error.

(** What a call does when it does not diverge: it returns its values, or
    it panics (a run-time error such as an index out of range). *)
Inductive outcome (A : Type) : Type :=
| Returns (a : A)
| Panics (reason : string).
Arguments Panics {A} reason.

(** [strconv.Itoa] and the [%d] verb on an [int]. *)
Definition Itoa (z : Z) : string := NilZero.string_of_int (Z.to_int z).

End Go.
Import Go.

(* ===================================================================== *)
(** * Package cluster: BasicCluster and BasicNode                         *)
(* ===================================================================== *)

Module Basic.

Local Open Scope string_scope.
Local Open Scope Z_scope.
Local Open Scope list_scope.

(** [*zap.SugaredLogger]: the wrapper only derives named children from
    it, so a logger is the path of names it carries. *)
Record Logger : Type := { logger_path : list string }.

Definition Named (l : Logger) (name : string) : Logger :=
  {| logger_path := logger_path l ++ [name] |}.

(** [StartProcRequest], as used by the callers of [Run]: the command, its
    arguments and the optional input. The wrapper passes it on
    untouched. *)
Record StartProcRequest : Type := {
  Command : string;
  Args : list string;
  Stdin : option (list byte)
}.

(** The [Process] interface: [Wait(ctx) (int, error)]. *)
Record Process : Type := { Wait : Z * go_error }.

(** A [Node] interface value.  Its dynamic type is either absent (the nil
    interface), some implementation of the interface ([NodeImpl], which
    may or may not also have a [RootDir() string] method), or a
    [*BasicNode], which satisfies [Node] through its embedded field. *)
Record NodeImpl : Type := {
  StartProc : StartProcRequest -> option Process * go_error;
  rootDirer : option string
}.

Inductive Node : Type :=
| NilNode
| ImplNode (impl : NodeImpl)
| BasicNodePtr (inner : Node) (log : Logger).

Record BasicNode : Type := { BN_Node : Node; BN_Log : Logger }.

Definition asNode (b : BasicNode) : Node := BasicNodePtr (BN_Node b) (BN_Log b).

(** The [Cluster] interface: [NewNodes(ctx, n) (Nodes, error)]. *)
Record Cluster : Type := { Cluster_NewNodes : Z -> list Node * go_error }.

Record BasicCluster : Type := { BC_Cluster : Cluster; BC_Log : Logger }.

Definition Option := BasicCluster -> BasicCluster.

Definition WithLogger (l : Logger) : Option :=
  fun c => {| BC_Cluster := BC_Cluster c; BC_Log := Named l "basic_cluster" |}.

(** [New]; [production] is what [zap.NewProduction()] hands back.  The
    logger of the fresh [BasicCluster] is set by [WithLogger] before any
    option runs. *)
Definition New (production : Logger * go_error) (c : Cluster) (opts : list Option)
  : option BasicCluster * go_error :=
  match production with
  | (_, Some err) => (None, Some (Errorf "constructing default logger: %w" [ArgErr (Some err)]))
  | (logger, None) =>
      let bc := WithLogger logger {| BC_Cluster := c; BC_Log := logger |} in
      (Some (fold_left (fun b o => o b) opts bc), None)
  end.

(** [BasicCluster.NewNodes]: the loop appends one wrapper per node of
    the underlying result, and the underlying error is returned next to
    them. *)
Definition NewNodes (c : BasicCluster) (n : Z) : list BasicNode * go_error :=
  let '(nodes, err) := Cluster_NewNodes (BC_Cluster c) n in
  let basicNodes :=
    fold_left
      (fun acc nd => acc ++ [{| BN_Node := nd; BN_Log := Named (BC_Log c) "basic_node" |}])
      nodes [] in
  (basicNodes, err).

(** [BasicCluster.NewNode].  [c.NewNodes] is the wrapper's own method
    (it hides the embedded one), so [nodes[0]] is a [*BasicNode] that is
    wrapped once more. *)
Definition NewNode (c : BasicCluster) : outcome (option BasicNode * go_error) :=
  let '(nodes, err) := NewNodes c 1 in
  match err with
  | Some e => Returns (None, Some e)
  | None =>
      match nodes with
      | [] => Panics "index out of range [0] with length 0"
      | n0 :: _ =>
          Returns (Some {| BN_Node := asNode n0;
                           BN_Log := Named (BC_Log c) "basic_node" |}, None)
      end
  end.

(** The promoted method [StartProc] of a [Node] value. *)
Fixpoint Node_StartProc (n : Node) (req : StartProcRequest)
  : outcome (option Process * go_error) :=
  match n with
  | NilNode => Panics "nil pointer dereference"
  | ImplNode impl => Returns (StartProc impl req)
  | BasicNodePtr inner _ => Node_StartProc inner req
  end.

(** [BasicNode.Run]. *)
Definition Run (n : BasicNode) (req : StartProcRequest) : outcome (Z * go_error) :=
  match Node_StartProc (BN_Node n) req with
  | Panics r => Panics r
  | Returns (_, Some err) => Returns (-1, Some err)
  | Returns (None, None) => Panics "nil pointer dereference"
  | Returns (Some proc, None) =>
      let '(code, err) := Wait proc in
      if negb (code =? 0)
      then Returns (-1, Some (Errorf "non-zero exit code %d: %w" [ArgInt code; ArgErr err]))
      else Returns (code, None)
  end.

(** The type assertion [n.Node.(interface{ RootDir() string })] followed
    by the call of the method found: [None] when the dynamic type has no
    such method (or the interface is nil), else what the call returns.
    A [*BasicNode] has the method, namely [BasicNode.RootDir] below. *)
Fixpoint Node_RootDir (n : Node) : option string :=
  match n with
  | NilNode => None
  | ImplNode impl => rootDirer impl
  | BasicNodePtr inner _ =>
      Some (match Node_RootDir inner with
            | Some d => d
            | None => "/"
            end)
  end.

(** [BasicNode.RootDir]. *)
Definition RootDir (n : BasicNode) : string :=
  match Node_RootDir (BN_Node n) with
  | Some d => d
  | None => "/"
  end.

End Basic.

(* ===================================================================== *)
(** * Package cluster/docker: the Docker cluster                          *)
(* ===================================================================== *)

Module Docker.

Local Open Scope string_scope.
Local Open Scope Z_scope.
Local Open Scope list_scope.

(** ** Data *)

(** [agent.Certs], through the fields the cluster reads. *)
Record CACert : Type := { CA_CertPEMBytes : list byte }.
Record ServerCert : Type := { CertPEMBytes : list byte; KeyPEMBytes : list byte }.
Record Certs : Type := { CA : CACert; Server : ServerCert }.

(** Handles of collaborators: the Docker client, the agent client and
    the body of an image-pull response. *)
Inductive DockerClient : Type := dockerClient (handle : nat).
Inductive AgentClient : Type := agentClient_ (handle : nat).
Inductive ReadCloser : Type := readCloser (handle : nat).

(** [container.Config] and [container.HostConfig], the fields set. *)
Record Config : Type := {
  Image : string;
  Entrypoint : list string;
  ExposedPorts : list string
}.

Record PortBinding : Type := { HostIP : string; HostPort_ : string }.

Record HostConfig : Type := {
  Binds : list string;
  PortBindings : list (string * list PortBinding)
}.

(** The [node] struct. *)
Record node : Type := {
  ID : Z;
  ContainerName : string;
  ContainerID : string;
  HostPort : Z;
  Env : list (string * string);
  agentClient : AgentClient;
  dockerClient_ : DockerClient
}.

(** The [Cluster] struct. *)
Record Cluster : Type := {
  Cert : Certs;
  BaseImage : string;
  ContainerPrefix : string;
  DockerClient_ : DockerClient;
  Nodes : list node;
  imagePulled : bool
}.

(** ** Calls to collaborators

    Every call that leaves the package is an event; the index is the type
    of what the call hands back.  [ImagePull] hands back a body with a nil
    error, or an error next to a body that may be nil. *)
Inductive PullResult : Type :=
| PullOk (out : ReadCloser)
| PullErr (out : option ReadCloser) (err : error).

Inductive ev : Type -> Type :=
| NewClientWithOpts : ev (DockerClient * go_error)
| GenerateCert : ev (Certs * go_error)
| RandIntn (n : Z) : ev Z
| Getwd : ev (string * go_error)
| FindUp (name wd : string) : ev string
| ImagePull (cl : DockerClient) (image : string) : ev PullResult
| CopyDiscard (out : ReadCloser) : ev go_error
| Close (out : ReadCloser) : ev unit
| GetEphemeralTCPPort : ev (Z * go_error)
| ContainerCreate (cl : DockerClient) (cfg : Config) (host : HostConfig)
                  (name : string) : ev (string * go_error)
| ContainerStart (cl : DockerClient) (id : string) : ev go_error
| NewClient (cert : Certs) (host : string) (port : Z) : ev (AgentClient * go_error)
| WaitForServer (cl : AgentClient) : ev go_error.

(** A terminating program over these calls: it returns, panics, or makes
    a call and continues with the answer. *)
Inductive Prog (R : Type) : Type :=
| Ret (r : R)
| Panic (reason : string)
| Vis (X : Type) (e : ev X) (k : X -> Prog R).
Arguments Panic {R} reason.
Arguments Vis {R X} e k.

Fixpoint bind {A B} (p : Prog A) (f : A -> Prog B) : Prog B :=
  match p with
  | Ret a => f a
  | Panic r => Panic r
  | Vis e k => Vis e (fun x => bind (k x) f)
  end.

Definition trigger {X} (e : ev X) : Prog X := Vis e (fun x => Ret x).

Declare Scope prog_scope.
Delimit Scope prog_scope with prog.
Notation "x <- c1 ;; c2" := (bind c1 (fun x => c2))
  (at level 61, c1 at next level, right associativity) : prog_scope.
Notation "' pat <- c1 ;; c2" := (bind c1 (fun x => match x with pat => c2 end))
  (at level 61, pat pattern, c1 at next level, right associativity) : prog_scope.
Notation "c1 ;; c2" := (bind c1 (fun _ => c2))
  (at level 61, right associativity) : prog_scope.
Local Open Scope prog_scope.

(** ** The environment

    A world answers every call from its own state; running a program in a
    world gives the outcome, the world afterwards and the calls made, in
    order, each with its answer. *)
Definition handler (W : Type) : Type := forall X, ev X -> W -> X * W.

Inductive call : Type := Call (X : Type) (e : ev X) (x : X).
Arguments Call {X} e x.

Fixpoint exec {W R} (h : handler W) (p : Prog R) (w : W)
  : outcome R * W * list call :=
  match p with
  | Ret r => (Returns r, w, [])
  | Panic reason => (Panics reason, w, [])
  | Vis e k =>
      let '(x, w1) := h _ e w in
      let '(o, w2, tr) := exec h (k x) w1 in
      (o, w2, Call e x :: tr)
  end.

Definition result_of {R W} (r : outcome R * W * list call) : outcome R := fst (fst r).
Definition trace_of {R W} (r : outcome R * W * list call) : list call := snd r.

(** ** base64.StdEncoding.EncodeToString (RFC 4648, with padding) *)

Definition encodeStd : string :=
  "ABCDEFGHIJKLMNOPQRSTUVWXYZabcdefghijklmnopqrstuvwxyz0123456789+/".

Definition sextet (v : Z) : ascii :=
  match String.get (Z.to_nat (Z.land v 63)) encodeStd with
  | Some c => c
  | None => "="%char
  end.

Definition byteZ (b : byte) : Z := Z.of_N (Byte.to_N b).

Fixpoint EncodeToString (src : list byte) : string :=
  match src with
  | [] => ""
  | [a] =>
      let v := Z.shiftl (byteZ a) 16 in
      String (sextet (Z.shiftr v 18)) (String (sextet (Z.shiftr v 12)) "==")
  | [a; b] =>
      let v := Z.lor (Z.shiftl (byteZ a) 16) (Z.shiftl (byteZ b) 8) in
      String (sextet (Z.shiftr v 18)) (String (sextet (Z.shiftr v 12))
        (String (sextet (Z.shiftr v 6)) "="))
  | a :: b :: c :: rest =>
      let v := Z.lor (Z.lor (Z.shiftl (byteZ a) 16) (Z.shiftl (byteZ b) 8)) (byteZ c) in
      String (sextet (Z.shiftr v 18)) (String (sextet (Z.shiftr v 12))
        (String (sextet (Z.shiftr v 6)) (String (sextet v)
          (EncodeToString rest))))
  end.

(** ** The package's functions *)

Definition chars : string := "abcefghijklmnopqrstuvwxyz0123456789".

Definition len (s : string) : Z := Z.of_nat (String.length s).

(** [randString]: one [rand.Intn(len(chars))] per byte; indexing [chars]
    out of range panics. *)
Fixpoint randString (n : nat) : Prog string :=
  match n with
  | O => Ret ""
  | S n' =>
      i <- trigger (RandIntn (len chars)) ;;
      match (if (0 <=? i) && (i <? len chars)
             then String.get (Z.to_nat i) chars else None) with
      | None => Panic "index out of range"
      | Some ch =>
          rest <- randString n' ;;
          Ret (String ch rest)
      end
  end.

(** [NewCluster].  The options are accepted and not applied. *)
Definition NewCluster (baseImage : string) (opts : list (Cluster -> Cluster))
  : Prog (option Cluster * go_error) :=
  '(dockerCl, err) <- trigger NewClientWithOpts ;;
  match err with
  | Some e => Ret (None, Some (Errorf "building Docker client: %w" [ArgErr (Some e)]))
  | None =>
      '(cert, err) <- trigger GenerateCert ;;
      match err with
      | Some e => Ret (None, Some (Errorf "generating TLS cert: %w" [ArgErr (Some e)]))
      | None =>
          prefix <- randString 6 ;;
          Ret (Some {| Cert := cert;
                       BaseImage := baseImage;
                       ContainerPrefix := prefix;
                       DockerClient_ := dockerCl;
                       Nodes := [];
                       imagePulled := false |}, None)
      end
  end.

Definition set_imagePulled (c : Cluster) (b : bool) : Cluster :=
  {| Cert := Cert c; BaseImage := BaseImage c; ContainerPrefix := ContainerPrefix c;
     DockerClient_ := DockerClient_ c; Nodes := Nodes c; imagePulled := b |}.

Definition set_Nodes (c : Cluster) (ns : list node) : Cluster :=
  {| Cert := Cert c; BaseImage := BaseImage c; ContainerPrefix := ContainerPrefix c;
     DockerClient_ := DockerClient_ c; Nodes := ns; imagePulled := imagePulled c |}.

(** [ensureImagePulled]; the deferred [out.Close()] runs after the copy. *)
Definition ensureImagePulled (c : Cluster) : Prog (Cluster * go_error) :=
  if imagePulled c then Ret (c, None)
  else
    r <- trigger (ImagePull (DockerClient_ c) (BaseImage c)) ;;
    match r with
    | PullErr out err =>
        match out with
        | Some o => trigger (Close o) ;; Ret (c, Some err)
        | None => Ret (c, Some err)
        end
    | PullOk out =>
        err <- trigger (CopyDiscard out) ;;
        match err with
        | Some e =>
            trigger (Close out) ;;
            Ret (c, Some (Errorf "reading Docker pull response: %w" [ArgErr (Some e)]))
        | None =>
            trigger (Close out) ;;
            Ret (set_imagePulled c true, None)
        end
    end.

(** The entrypoint handed to [ContainerCreate]. *)
Definition entrypoint (c : Cluster) : list string :=
  let caCertPEMEncoded := EncodeToString (CA_CertPEMBytes (CA (Cert c))) in
  let certPEMEncoded := EncodeToString (CertPEMBytes (Server (Cert c))) in
  let keyPEMEncoded := EncodeToString (KeyPEMBytes (Server (Cert c))) in
  ["/nodeagent";
   "--ca-cert-pem"; caCertPEMEncoded;
   "--cert-pem"; certPEMEncoded;
   "--key-pem"; keyPEMEncoded;
   "--on-heartbeat-failure"; "exit";
   "--listen-addr"; "0.0.0.0:8080"].

(** The provisioning loop of [NewNodes], [todo] iterations from index [i]:
    it hands back the cluster, the nodes made so far and the error that
    ended the function early, if any. *)
Fixpoint provision (nodeAgentBin : string) (startID : Z) (todo : nat) (i : Z)
         (c : Cluster) (newNodes : list node) : Prog (Cluster * list node * go_error) :=
  match todo with
  | O => Ret (c, newNodes, None)
  | S todo' =>
      let id := startID + i in
      let containerName :=
        ("clustertest-" ++ ContainerPrefix c ++ "-" ++ Itoa id)%string in
      '(hostPort, err) <- trigger GetEphemeralTCPPort ;;
      match err with
      | Some e => Ret (c, [], Some (Errorf "acquiring ephemeral port: %w" [ArgErr (Some e)]))
      | None =>
          '(createID, err) <- trigger (ContainerCreate (DockerClient_ c)
              {| Image := BaseImage c;
                 Entrypoint := entrypoint c;
                 ExposedPorts := ["8080"] |}
              {| Binds := [(nodeAgentBin ++ ":/nodeagent")%string];
                 PortBindings := [("8080", [{| HostIP := "0.0.0.0";
                                               HostPort_ := Itoa hostPort |}])] |}
              containerName) ;;
          match err with
          | Some e => Ret (c, [], Some (Errorf "creating Docker container: %w" [ArgErr (Some e)]))
          | None =>
              let containerID := createID in
              err <- trigger (ContainerStart (DockerClient_ c) containerID) ;;
              match err with
              | Some e =>
                  Ret (c, [], Some (Errorf "starting container %q: %w"
                                      [ArgStr containerID; ArgErr (Some e)]))
              | None =>
                  '(agentCl, err) <- trigger (NewClient (Cert c) "127.0.0.1" hostPort) ;;
                  match err with
                  | Some e =>
                      Ret (c, [], Some (Errorf "building nodeagent client: %w" [ArgErr (Some e)]))
                  | None =>
                      let nd := {| ID := id;
                                   ContainerName := containerName;
                                   ContainerID := createID;
                                   HostPort := hostPort;
                                   Env := [];
                                   agentClient := agentCl;
                                   dockerClient_ := DockerClient_ c |} in
                      provision nodeAgentBin startID todo' (i + 1)
                                (set_Nodes c (Nodes c ++ [nd])) (newNodes ++ [nd])
                  end
              end
          end
      end
  end.

(** The closing loop of [NewNodes]: what [WaitForServer] returns is
    dropped. *)
Fixpoint waitAll (newNodes : list node) : Prog unit :=
  match newNodes with
  | [] => Ret tt
  | n :: rest => trigger (WaitForServer (agentClient n)) ;; waitAll rest
  end.

(** [Cluster.NewNodes]; the cluster comes back next to the results, as
    the receiver is updated in place. *)
Definition NewNodes (c : Cluster) (n : Z) : Prog (Cluster * (list node * go_error)) :=
  '(wd, err) <- trigger Getwd ;;
  match err with
  | Some e => Ret (c, ([], Some (Errorf "getting wd: %w" [ArgErr (Some e)])))
  | None =>
      nodeAgentBin <- trigger (FindUp "nodeagent" wd) ;;
      if (nodeAgentBin =? "")%string
      then Ret (c, ([], Some (ErrNew "unable to find nodeagent bin")))
      else
        '(c, err) <- ensureImagePulled c ;;
        match err with
        | Some e => Ret (c, ([], Some (Errorf "pulling image: %w" [ArgErr (Some e)])))
        | None =>
            let startID := Z.of_nat (List.length (Nodes c)) in
            '(c, newNodes, err) <- provision nodeAgentBin startID (Z.to_nat n) 0 c [] ;;
            match err with
            | Some e => Ret (c, ([], Some e))
            | None =>
                waitAll newNodes ;;
                Ret (c, (newNodes, None))
            end
        end
  end.

(** [Cluster.Cleanup]. *)
Definition Cleanup (c : Cluster) : go_error := None.

End Docker.

(* ===================================================================== *)
(** * The node agent's process execution engine                           *)
(* ===================================================================== *)

Module Engine.

Local Open Scope string_scope.
Local Open Scope Z_scope.
Local Open Scope list_scope.

(** ** Processes *)

(** Modelled from the spec: the two output streams of a process (spec 4.3).
    The repository has the engine's test, not the engine. *)
Inductive Fd : Type := Stdout | Stderr.

(** Modelled from the spec: the OS process that the engine spawns, which
    the repository does not contain, as it appears at its three standard
    streams.  A process exits with a code, writes a byte to its standard
    output or standard error, or reads a byte of its standard input
    ([None] is end-of-file). *)
Inductive Proc : Type :=
| Exit (code : Z)
| Write (fd : Fd) (b : byte) (next : Proc)
| Read (next : option byte -> Proc).

(** Modelled from the spec: a process that writes [bs] to [fd], byte after
    byte, and goes on as [next]. *)
Fixpoint write_all (fd : Fd) (bs : list byte) (next : Proc) : Proc :=
  match bs with
  | [] => next
  | b :: rest => Write fd b (write_all fd rest next)
  end.

(** Modelled from the spec: the byte that ends a line. *)
Definition newline : byte := x0a.

(** Modelled from the spec: a line-buffered reader (spec 4.3 names
    [read]); it reads up to a newline, end-of-file, or [max] bytes. *)
Fixpoint read_line (max : nat) (acc : list byte) (next : list byte -> Proc) : Proc :=
  match max with
  | O => next acc
  | S max' =>
      Read (fun ob =>
              match ob with
              | None => next acc
              | Some b =>
                  if Byte.eqb b newline then next acc
                  else read_line max' (acc ++ [b]) next
              end)
  end.

(** Modelled from the spec: what a process does when it is run on its own
    with [input] as the whole of its standard input: the bytes it writes to
    standard output, those it writes to standard error, and its exit
    code. *)
Fixpoint behaviour (p : Proc) (input : list byte) {struct p}
  : list byte * list byte * Z :=
  match p with
  | Exit code => ([], [], code)
  | Write fd b next =>
      let '(o, e, code) := behaviour next input in
      match fd with
      | Stdout => (b :: o, e, code)
      | Stderr => (o, b :: e, code)
      end
  | Read next =>
      match input with
      | [] => behaviour (next None) []
      | b :: rest => behaviour (next (Some b)) rest
      end
  end.

(** Modelled from the spec: the number of steps the process takes on that
    input. *)
Fixpoint work (p : Proc) (input : list byte) {struct p} : nat :=
  match p with
  | Exit _ => 1
  | Write _ _ next => S (work next input)
  | Read next =>
      match input with
      | [] => S (work (next None) [])
      | b :: rest => S (work (next (Some b)) rest)
      end
  end.

(** ** Requests *)

(** [cluster.RunRequest] as [TestCommand] builds it: command, arguments,
    the optional input stream, and whether each output sink is wired. *)
Record RunRequest : Type := {
  Command : string;
  Args : list string;
  Stdin : option (list byte);
  StdoutWired : bool;
  StderrWired : bool
}.

(** Modelled from the spec: the programs installed on the node, [None]
    when the command cannot be started (binary missing, permission
    denied). *)
Definition OS : Type := string -> list string -> option Proc.

(** ** The engine's state *)

(** Modelled from the spec: the process execution engine (spec 4.3 and 5),
    whose implementation the repository does not contain.  One run is the
    process, the caller's input not yet relayed, the three OS pipes (each
    holding at most [cap] bytes), the caller's sinks, and the exit code once
    the wait has yielded it.  [seen] records what the process's reads have
    returned so far. *)
Record State : Type := mkState {
  proc : Proc + Z;
  src : list byte;
  stdin_closed : bool;
  inpipe : list byte;
  seen : list (option byte);
  outpipe : list byte;
  errpipe : list byte;
  outsink : option (list byte);
  errsink : option (list byte);
  result : option Z
}.

(** Modelled from the spec: the pipe and the sink of an output stream, and
    the updates of a state's fields. *)
Definition pipe (fd : Fd) (s : State) : list byte :=
  match fd with Stdout => outpipe s | Stderr => errpipe s end.

Definition sink (fd : Fd) (s : State) : option (list byte) :=
  match fd with Stdout => outsink s | Stderr => errsink s end.

Definition set_proc (s : State) (p : Proc + Z) : State :=
  mkState p (src s) (stdin_closed s) (inpipe s) (seen s) (outpipe s) (errpipe s)
          (outsink s) (errsink s) (result s).

Definition set_stdin (s : State) (sr : list byte) (closed : bool) (ip : list byte)
           (sn : list (option byte)) : State :=
  mkState (proc s) sr closed ip sn (outpipe s) (errpipe s)
          (outsink s) (errsink s) (result s).

Definition set_pipe (fd : Fd) (s : State) (bs : list byte) : State :=
  match fd with
  | Stdout => mkState (proc s) (src s) (stdin_closed s) (inpipe s) (seen s) bs (errpipe s)
                      (outsink s) (errsink s) (result s)
  | Stderr => mkState (proc s) (src s) (stdin_closed s) (inpipe s) (seen s) (outpipe s) bs
                      (outsink s) (errsink s) (result s)
  end.

Definition set_sink (fd : Fd) (s : State) (k : option (list byte)) : State :=
  match fd with
  | Stdout => mkState (proc s) (src s) (stdin_closed s) (inpipe s) (seen s) (outpipe s)
                      (errpipe s) k (errsink s) (result s)
  | Stderr => mkState (proc s) (src s) (stdin_closed s) (inpipe s) (seen s) (outpipe s)
                      (errpipe s) (outsink s) k (result s)
  end.

Definition set_result (s : State) (r : option Z) : State :=
  mkState (proc s) (src s) (stdin_closed s) (inpipe s) (seen s) (outpipe s) (errpipe s)
          (outsink s) (errsink s) r.

(** Modelled from the spec: the state when the request has been accepted
    and the process spawned.  With no input stream the process's standard input is at
    end-of-file from the start; a wired sink starts empty. *)
Definition init (p : Proc) (req : RunRequest) : State :=
  {| proc := inl p;
     src := match Stdin req with Some bs => bs | None => [] end;
     stdin_closed := match Stdin req with Some _ => false | None => true end;
     inpipe := [];
     seen := [];
     outpipe := [];
     errpipe := [];
     outsink := if StdoutWired req then Some [] else None;
     errsink := if StderrWired req then Some [] else None;
     result := None |}.

(** Modelled from the spec: [Run] (spec 4.3), a start error when the
    process cannot be started, else the run in its initial state. *)
Definition Run (os : OS) (req : RunRequest) : State + error :=
  match os (Command req) (Args req) with
  | None => inr (ErrNew "start error")
  | Some p => inl (init p req)
  end.

(** ** Concurrent tasks *)

(** Modelled from the spec: the concurrent tasks of one run (spec 5): the
    process itself ([TProc]), the relay of the caller's input ([TIn]), one
    relay per output stream ([TDrain]), and the wait ([TWait]). *)
Inductive Task : Type := TIn | TProc | TDrain (fd : Fd) | TWait.

(** Modelled from the spec: a pipe of capacity [cap] takes one more byte
    (a full OS pipe buffer blocks its writer). *)
Definition has_room (cap : nat) (bs : list byte) : bool :=
  (List.length bs <? cap)%nat.

(** Modelled from the spec: the one step a task can take in a state,
    [None] when it is blocked (spec 4.3):
    - [TIn] moves one byte of the caller's input into the stdin pipe when
      the pipe has room, and closes the pipe when the input is exhausted;
    - [TProc] lets the process write one byte (when the pipe has room),
      read one byte (or end-of-file once the pipe is empty and closed), or
      exit;
    - [TDrain fd] takes one byte out of the pipe and appends it to the
      sink, or discards it when the sink is absent;
    - [TWait] yields the exit code once the process has exited and both
      pipes have been drained. *)

Definition fire (cap : nat) (t : Task) (s : State) : option State :=
  match result s with
  | Some _ => None
  | None =>
      match t with
      | TIn =>
          if stdin_closed s then None
          else match src s with
               | [] => Some (set_stdin s [] true (inpipe s) (seen s))
               | b :: rest =>
                   if has_room cap (inpipe s)
                   then Some (set_stdin s rest false (inpipe s ++ [b]) (seen s))
                   else None
               end
      | TProc =>
          match proc s with
          | inr _ => None
          | inl (Exit code) => Some (set_proc s (inr code))
          | inl (Write fd b next) =>
              if has_room cap (pipe fd s)
              then Some (set_proc (set_pipe fd s (pipe fd s ++ [b])) (inl next))
              else None
          | inl (Read next) =>
              match inpipe s with
              | b :: rest =>
                  Some (set_proc (set_stdin s (src s) (stdin_closed s) rest
                                            (seen s ++ [Some b]))
                                 (inl (next (Some b))))
              | [] =>
                  if stdin_closed s
                  then Some (set_proc (set_stdin s (src s) true [] (seen s ++ [None]))
                                      (inl (next None)))
                  else None
              end
          end
      | TDrain fd =>
          match pipe fd s with
          | [] => None
          | b :: rest =>
              Some (set_sink fd (set_pipe fd s rest)
                             (option_map (fun got => got ++ [b]) (sink fd s)))
          end
      | TWait =>
          match proc s, outpipe s, errpipe s with
          | inr code, [], [] => Some (set_result s (Some code))
          | _, _, _ => None
          end
      end
  end.

(** Modelled from the spec: a schedule is the order in which the
    scheduler picks tasks; picking a blocked task changes nothing. *)
Fixpoint run (cap : nat) (sched : list Task) (s : State) : State :=
  match sched with
  | [] => s
  | t :: rest =>
      match fire cap t s with
      | Some s' => run cap rest s'
      | None => run cap rest s
      end
  end.

(** Modelled from the spec: the schedules in which every pick was of a
    task that could step. *)
Fixpoint all_fire (cap : nat) (sched : list Task) (s : State) : bool :=
  match sched with
  | [] => true
  | t :: rest =>
      match fire cap t s with
      | Some s' => all_fire cap rest s'
      | None => false
      end
  end.

(** Modelled from the spec: the tasks of a run. *)
Definition tasks : list Task := [TIn; TProc; TDrain Stdout; TDrain Stderr; TWait].

(** Modelled from the spec: round-robin over the tasks, [rounds] times. *)
Fixpoint round_robin (rounds : nat) : list Task :=
  match rounds with
  | O => []
  | S r => tasks ++ round_robin r
  end.

(** ** The programs and cases of TestCommand *)

Definition bytes (s : string) : list byte := list_byte_of_string s.

Fixpoint join (sep : string) (ws : list string) : string :=
  match ws with
  | [] => ""
  | [w] => w
  | w :: rest => (w ++ sep ++ join sep rest)%string
  end.

(** Modelled from the spec: the longest line [read] is given here. *)
Definition LINE_MAX : nat := 2048.

(** Modelled from the spec: [echo], which prints its arguments separated
    by blanks, and a newline. *)
Definition echo (args : list string) : Proc :=
  write_all Stdout (bytes (join " " args ++ String "010"%char "")) (Exit 0).

(** Modelled from the spec: [sh -c "printf foo; printf bar 1>&2"]. *)
Definition printf_foo_bar : Proc :=
  write_all Stdout (bytes "foo") (write_all Stderr (bytes "bar") (Exit 0)).

(** Modelled from the spec: [sh -c "read line; echo $line bar"], for a
    line free of blanks, backslashes and pattern characters, which [$line]
    then expands to unchanged. *)
Definition read_line_echo : Proc :=
  read_line LINE_MAX []
    (fun line => write_all Stdout (line ++ bytes (" bar" ++ String "010"%char "")) (Exit 0)).

(** Modelled from the spec: the programs the cases of [TestCommand] run,
    by command and arguments. *)
Definition test_os : OS :=
  fun cmd args =>
    if (cmd =? "echo")%string then Some (echo args)
    else if (cmd =? "sh")%string
    then match args with
         | [flag; script] =>
             if negb (flag =? "-c")%string then None
             else if (script =? "printf foo; printf bar 1>&2")%string
             then Some printf_foo_bar
             else if (script =? "read line; echo $line bar")%string
             then Some read_line_echo
             else None
         | _ => None
         end
    else None.

(** The table of cases of [TestCommand]. *)
Record Case : Type := {
  name : string;
  cmd : string;
  args : list string;
  stdin : string;
  expStdout : string;
  expStderr : string
}.

Definition nl : string := String "010"%char "".

Definition cases : list Case :=
  [ {| name := "happy case"; cmd := "echo"; args := ["hello"];
       stdin := ""; expStdout := "hello" ++ nl; expStderr := "" |};
    {| name := "happy case, no stdout reader"; cmd := "echo"; args := ["hello"];
       stdin := ""; expStdout := ""; expStderr := "" |};
    {| name := "happy case with stdout and stderr readers"; cmd := "sh";
       args := ["-c"; "printf foo; printf bar 1>&2"];
       stdin := ""; expStdout := "foo"; expStderr := "bar" |};
    {| name := "happy case with no stderr and stdout readers"; cmd := "sh";
       args := ["-c"; "printf foo; printf bar 1>&2"];
       stdin := ""; expStdout := ""; expStderr := "" |};
    {| name := "stdin to stdout"; cmd := "sh";
       args := ["-c"; "read line; echo $line bar"];
       stdin := "foo"; expStdout := "foo bar" ++ nl; expStderr := "" |} ]%string.

(** The request a case is turned into: a sink is wired when output is
    expected on it, the input when the case has some. *)
Definition runReq (c : Case) : RunRequest :=
  {| Command := cmd c;
     Args := args c;
     Stdin := if (stdin c =? "")%string then None else Some (bytes (stdin c));
     StdoutWired := negb (expStdout c =? "")%string;
     StderrWired := negb (expStderr c =? "")%string |}.

Definition bytes_eqb (a b : list byte) : bool :=
  if list_eq_dec Byte.byte_eq_dec a b then true else false.

(** The assertions of a case on a finished run: no start error, exit
    code 0, and the expected contents in each sink that was wired. *)
Definition case_passes (c : Case) (r : State + error) : bool :=
  match r with
  | inr _ => false
  | inl s =>
      match result s with
      | Some code =>
          (code =? 0)
          && (if (expStdout c =? "")%string then true
              else match outsink s with
                   | Some got => bytes_eqb got (bytes (expStdout c))
                   | None => false
                   end)
          && (if (expStderr c =? "")%string then true
              else match errsink s with
                   | Some got => bytes_eqb got (bytes (expStderr c))
                   | None => false
                   end)
      | None => false
      end
  end.

End Engine.

(* ===================================================================== *)
(** * The node agent's startup inputs and liveness supervisor             *)
(* ===================================================================== *)

Module Agent.

Local Open Scope string_scope.

(** Modelled from the spec: the agent's command line (spec 6, agent
    startup inputs), which the repository does not contain.  After the
    program name the arguments come as flag and value pairs. *)
Fixpoint flag_pairs (argv : list string) : list (string * string) :=
  match argv with
  | flag :: value :: rest => (flag, value) :: flag_pairs rest
  | _ => []
  end.

(** Modelled from the spec: the value given for a flag. *)
Fixpoint lookup (flag : string) (pairs : list (string * string)) : option string :=
  match pairs with
  | [] => None
  | (f, v) :: rest => if (f =? flag)%string then Some v else lookup flag rest
  end.

(** Modelled from the spec: the value an entrypoint (program name, then
    flags) gives for a flag. *)
Definition flag_of (entrypoint : list string) (flag : string) : option string :=
  lookup flag (flag_pairs (tl entrypoint)).

(** Modelled from the spec: the heartbeat state and the liveness
    supervisor (spec 3 and 4.5), which the repository does not contain.
    The supervisor starts [Alive]; a heartbeat resets the deadline; when
    the deadline elapses with no heartbeat it becomes [Dead], and the
    failure action decides: [ignore] does nothing, [exit] ends the agent
    process. *)
Inductive Action : Type := ignore | exit.

(** Modelled from the spec: the supervisor's two states (spec 4.5). *)
Inductive Health : Type := Alive | Dead.

(** Modelled from the spec: the heartbeat state, with whether the agent
    process is still running. *)
Record Supervisor : Type := {
  action : Action;
  health : Health;
  process_running : bool
}.

(** Modelled from the spec: what the supervisor reacts to. *)
Inductive Tick : Type := Heartbeat | DeadlineElapsed.

(** Modelled from the spec: the heartbeat-failure action, [ignore] or
    [exit] (spec 6). *)
Definition parse_action (v : string) : option Action :=
  if (v =? "exit")%string then Some exit
  else if (v =? "ignore")%string then Some ignore
  else None.

(** Modelled from the spec: agent startup; the supervisor starts [Alive]
    with the action its command line configures. *)
Definition startup (entrypoint : list string) : option Supervisor :=
  match flag_of entrypoint "--on-heartbeat-failure" with
  | None => None
  | Some v =>
      match parse_action v with
      | None => None
      | Some a => Some {| action := a; health := Alive; process_running := true |}
      end
  end.

(** Modelled from the spec: the supervisor's transition (spec 4.5). *)
Definition supervise (s : Supervisor) (t : Tick) : Supervisor :=
  if negb (process_running s) then s
  else match t with
       | Heartbeat => s
       | DeadlineElapsed =>
           match action s with
           | ignore => {| action := ignore; health := Dead; process_running := true |}
           | exit => {| action := exit; health := Dead; process_running := false |}
           end
       end.

End Agent.

(* ===================================================================== *)
(** * Properties of the calls a Docker cluster makes                      *)
(* ===================================================================== *)

Module DockerSpec.

Import Docker.
Local Open Scope string_scope.
Local Open Scope prog_scope.

(** A test's use of a cluster: a succession of [NewNodes] calls, each on
    the cluster as the previous one left it, failed or not. *)
Fixpoint NewNodesSeq (c : Cluster) (ns : list Z) : Prog Cluster :=
  match ns with
  | [] => Ret c
  | n :: rest =>
      r <- NewNodes c n ;;
      NewNodesSeq (fst r) rest
  end.

(** A program all of whose calls satisfy [Q] and all of whose returned
    values satisfy [post], whatever the collaborators answer. *)
Fixpoint sat {R} (Q : forall X, ev X -> Prop) (post : R -> Prop) (p : Prog R) : Prop :=
  match p with
  | Ret r => post r
  | Panic _ => True
  | Vis e k => Q _ e /\ forall x, sat Q post (k x)
  end.

Definition call_sat (Q : forall X, ev X -> Prop) (cl : call) : Prop :=
  match cl with Call e _ => Q _ e end.

Definition is_GenerateCert (cl : call) : bool :=
  match cl with
  | Call e _ => match e with GenerateCert => true | _ => false end
  end.

Definition count_GenerateCert (tr : list call) : nat :=
  List.length (filter is_GenerateCert tr).

(** The argument list of an agent started with the certificate set
    [cert]: its three PEM blocks, base64-encoded, as the values of the
    agent's certificate flags. *)
Definition agent_args (cert : Certs) : list string :=
  ["/nodeagent";
   "--ca-cert-pem"; EncodeToString (CA_CertPEMBytes (CA cert));
   "--cert-pem"; EncodeToString (CertPEMBytes (Server cert));
   "--key-pem"; EncodeToString (KeyPEMBytes (Server cert));
   "--on-heartbeat-failure"; "exit";
   "--listen-addr"; "0.0.0.0:8080"].

(** The call neither generates a certificate nor uses another one than
    [cert]: a container is created with the argument list of [cert], and
    an agent client is built from [cert]. *)
Definition with_cert (cert : Certs) (X : Type) (e : ev X) : Prop :=
  match e with
  | GenerateCert => False
  | ContainerCreate _ cfg _ _ => Entrypoint cfg = agent_args cert
  | NewClient cert' _ _ => cert' = cert
  | _ => True
  end.

(** [flag] is an argument of [argv] and [value] is the argument after it. *)
Definition flag_given (flag value : string) (argv : list string) : Prop :=
  exists before after, argv = (before ++ flag :: value :: after)%list.

(** The call, when it creates a container, passes the agent
    [--on-heartbeat-failure exit]; and an agent started with that
    entrypoint is configured with the failure action [exit], so that when
    its deadline elapses it is dead and no longer running. *)
Definition self_destructs (X : Type) (e : ev X) : Prop :=
  match e with
  | ContainerCreate _ cfg _ _ =>
      flag_given "--on-heartbeat-failure" "exit" (Entrypoint cfg)
      /\ exists s, Agent.startup (Entrypoint cfg) = Some s
                   /\ Agent.action s = Agent.exit
                   /\ Agent.health s = Agent.Alive
                   /\ Agent.process_running s = true
                   /\ Agent.health (Agent.supervise s Agent.DeadlineElapsed) = Agent.Dead
                   /\ Agent.process_running (Agent.supervise s Agent.DeadlineElapsed) = false
  | _ => True
  end.

(** What every call of [NewNodes] on a cluster holding [cert] satisfies. *)
Definition launch_ok (cert : Certs) (X : Type) (e : ev X) : Prop :=
  with_cert cert e /\ self_destructs e.

Definition is_WaitForServer (X : Type) (e : ev X) : bool :=
  match e with WaitForServer _ => true | _ => false end.

(** What every call of the provisioning part of [NewNodes] satisfies. *)
Definition provisioning_ok (cert : Certs) (X : Type) (e : ev X) : Prop :=
  launch_ok cert e /\ is_WaitForServer e = false.

Definition any_call (X : Type) (e : ev X) : Prop := True.

(** A program that, once it has called [WaitForServer], can only return
    values satisfying [post], whatever the collaborators answer. *)
Fixpoint after_wait {R} (post : R -> Prop) (p : Prog R) : Prop :=
  match p with
  | Ret _ => True
  | Panic _ => True
  | Vis e k =>
      if is_WaitForServer e then forall x, sat any_call post (k x)
      else forall x, after_wait post (k x)
  end.

Definition called_WaitForServer (tr : list call) : bool :=
  existsb (fun cl => match cl with Call e _ => is_WaitForServer e end) tr.

(** ** A world in which the agents never become reachable *)

Definition deadline_exceeded : error := ErrNew "context deadline exceeded".

Definition test_cert : Certs :=
  {| CA := {| CA_CertPEMBytes := list_byte_of_string "ca" |};
     Server := {| CertPEMBytes := list_byte_of_string "crt";
                  KeyPEMBytes := list_byte_of_string "key" |} |}.

(** Every provisioning call succeeds (the world's state counts the calls
    and numbers the handles); [WaitForServer] always fails. *)
Definition unreachable_world : handler nat :=
  fun X e w =>
    match e in ev X return X * nat with
    | NewClientWithOpts => ((dockerClient 0, None), S w)
    | GenerateCert => ((test_cert, None), S w)
    | RandIntn n => (Z.of_nat w mod n, S w)%Z
    | Getwd => (("/repo", None), S w)
    | FindUp _ wd => ((wd ++ "/nodeagent")%string, S w)
    | ImagePull _ _ => (PullOk (readCloser w), S w)
    | CopyDiscard _ => (None, S w)
    | Close _ => (tt, S w)
    | GetEphemeralTCPPort => ((40000 + Z.of_nat w, None)%Z, S w)
    | ContainerCreate _ _ _ name => ((("id-" ++ name)%string, None), S w)
    | ContainerStart _ _ => (None, S w)
    | NewClient _ _ _ => ((agentClient_ w, None), S w)
    | WaitForServer _ => (Some deadline_exceeded, S w)
    end.

(** The cluster that [NewCluster "ubuntu"] builds in that world, and the
    calls it makes on the way. *)
Definition test_cluster : Cluster :=
  {| Cert := test_cert;
     BaseImage := "ubuntu";
     ContainerPrefix := "cefghi";
     DockerClient_ := dockerClient 0;
     Nodes := [];
     imagePulled := false |}.

Definition test_cluster_calls : list call :=
  trace_of (exec unreachable_world (NewCluster "ubuntu" []) 0%nat).

(** The node that [NewNodes(ctx, 1)] on that cluster provisions first. *)
Definition test_node : node :=
  {| ID := 0;
     ContainerName := "clustertest-cefghi-0";
     ContainerID := "id-clustertest-cefghi-0";
     HostPort := 40005;
     Env := [];
     agentClient := agentClient_ 8;
     dockerClient_ := dockerClient 0 |}.

End DockerSpec.

(* ===================================================================== *)
(** * Properties of a run of the engine                                   *)
(* ===================================================================== *)

Module EngineSpec.

Import Engine.
Local Open Scope list_scope.

(** The bytes the caller sends: none when there is no input stream. *)
Definition input_of (req : RunRequest) : list byte :=
  match Stdin req with Some bs => bs | None => [] end.

Definition stdout_of (p : Proc) (input : list byte) : list byte :=
  fst (fst (behaviour p input)).

Definition stderr_of (p : Proc) (input : list byte) : list byte :=
  snd (fst (behaviour p input)).

Definition exit_code_of (p : Proc) (input : list byte) : Z :=
  snd (behaviour p input).

(** What the process of a state has still to do, on the input that is in
    the stdin pipe or still with the caller. *)
Definition rest_out (s : State) : list byte :=
  match proc s with
  | inl p => stdout_of p (inpipe s ++ src s)
  | inr _ => []
  end.

Definition rest_err (s : State) : list byte :=
  match proc s with
  | inl p => stderr_of p (inpipe s ++ src s)
  | inr _ => []
  end.

Definition final_code (s : State) : Z :=
  match proc s with
  | inl p => exit_code_of p (inpipe s ++ src s)
  | inr code => code
  end.

(** The process has read a prefix of the input, byte for byte and in
    order, and has seen end-of-file only once it had read all of it. *)
Definition stdin_faithful (input : list byte) (s : State) : Prop :=
  exists (pre : list byte) (eofs : nat),
    seen s = map Some pre ++ repeat None eofs
    /\ pre ++ inpipe s ++ src s = input
    /\ (stdin_closed s = true -> src s = [])
    /\ ((0 < eofs)%nat -> pre = input).

(** A sink that is wired holds, with what is still in the pipe and what
    the process has still to write, exactly the stream of the process. *)
Definition sink_faithful (wired : bool) (got : option (list byte))
           (inflight rest whole : list byte) : Prop :=
  if wired then exists g, got = Some g /\ g ++ inflight ++ rest = whole
  else got = None.

(** The invariant of a run of process [p] for request [req]. *)
Definition Inv (p : Proc) (req : RunRequest) (s : State) : Prop :=
  stdin_faithful (input_of req) s
  /\ final_code s = exit_code_of p (input_of req)
  /\ sink_faithful (StdoutWired req) (outsink s) (outpipe s) (rest_out s)
                   (stdout_of p (input_of req))
  /\ sink_faithful (StderrWired req) (errsink s) (errpipe s) (rest_err s)
                   (stderr_of p (input_of req))
  /\ (forall code, result s = Some code ->
                   proc s = inr code /\ outpipe s = [] /\ errpipe s = []).

(** An upper bound on the steps a state has left. *)
Definition weight (s : State) : nat :=
  2 * (match proc s with
       | inl p => work p (inpipe s ++ src s)
       | inr _ => 0
       end)
  + List.length (outpipe s) + List.length (errpipe s) + List.length (src s)
  + (if stdin_closed s then 0 else 1)
  + (match result s with Some _ => 0 | None => 1 end).

(** The steps of a run, one rule per move of a task. *)
Inductive step (cap : nat) : State -> State -> Prop :=
| step_relay_in pr b sr ip sn op ep os es :
    (List.length ip < cap)%nat ->
    step cap (mkState pr (b :: sr) false ip sn op ep os es None)
             (mkState pr sr false (ip ++ [b]) sn op ep os es None)
| step_close_in pr ip sn op ep os es :
    step cap (mkState pr [] false ip sn op ep os es None)
             (mkState pr [] true ip sn op ep os es None)
| step_exit code sr cl ip sn op ep os es :
    step cap (mkState (inl (Exit code)) sr cl ip sn op ep os es None)
             (mkState (inr code) sr cl ip sn op ep os es None)
| step_write_out b next sr cl ip sn op ep os es :
    (List.length op < cap)%nat ->
    step cap (mkState (inl (Write Stdout b next)) sr cl ip sn op ep os es None)
             (mkState (inl next) sr cl ip sn (op ++ [b]) ep os es None)
| step_write_err b next sr cl ip sn op ep os es :
    (List.length ep < cap)%nat ->
    step cap (mkState (inl (Write Stderr b next)) sr cl ip sn op ep os es None)
             (mkState (inl next) sr cl ip sn op (ep ++ [b]) os es None)
| step_read next b sr cl ip sn op ep os es :
    step cap (mkState (inl (Read next)) sr cl (b :: ip) sn op ep os es None)
             (mkState (inl (next (Some b))) sr cl ip (sn ++ [Some b]) op ep os es None)
| step_eof next sr sn op ep os es :
    step cap (mkState (inl (Read next)) sr true [] sn op ep os es None)
             (mkState (inl (next None)) sr true [] (sn ++ [None]) op ep os es None)
| step_drain_out pr sr cl ip sn b op ep os es :
    step cap (mkState pr sr cl ip sn (b :: op) ep os es None)
             (mkState pr sr cl ip sn op ep (option_map (fun got => got ++ [b]) os) es None)
| step_drain_err pr sr cl ip sn op b ep os es :
    step cap (mkState pr sr cl ip sn op (b :: ep) os es None)
             (mkState pr sr cl ip sn op ep os (option_map (fun got => got ++ [b]) es) None)
| step_wait code sr cl ip sn os es :
    step cap (mkState (inr code) sr cl ip sn [] [] os es None)
             (mkState (inr code) sr cl ip sn [] [] os es (Some code)).

Definition blocked (cap : nat) (s : State) : bool :=
  forallb (fun t => match fire cap t s with Some _ => false | None => true end) tasks.

(** A process that writes "bar" to standard error before "foo" to standard
    output, and one that copies its standard input to standard output (at
    most [n] bytes). *)
Definition err_then_out : Proc :=
  write_all Stderr (bytes "bar") (write_all Stdout (bytes "foo") (Exit 0)).

Fixpoint cat (n : nat) : Proc :=
  match n with
  | O => Exit 0
  | S n' => Read (fun ob => match ob with
                            | None => Exit 0
                            | Some b => Write Stdout b (cat n')
                            end)
  end.

(** What the assertions of a case demand of the process it runs. *)
Definition meets_case (c : Case) (p : Proc) : bool :=
  (exit_code_of p (input_of (runReq c)) =? 0)%Z
  && (if (expStdout c =? "")%string then true
      else bytes_eqb (stdout_of p (input_of (runReq c))) (bytes (expStdout c)))
  && (if (expStderr c =? "")%string then true
      else bytes_eqb (stderr_of p (input_of (runReq c))) (bytes (expStderr c))).

Definition nth_case (i : nat) : Case :=
  nth i cases {| name := ""; cmd := ""; args := []; stdin := "";
                 expStdout := ""; expStderr := "" |}.

End EngineSpec.

(* ===================================================================== *)
(** * Inputs used to exercise the wrapper                                 *)
(* ===================================================================== *)

Module BasicSpec.

Import Basic.
Local Open Scope string_scope.
Local Open Scope Z_scope.

(** The wrapper [BasicCluster.NewNodes] gives each node. *)
Definition wrap (c : BasicCluster) (nd : Node) : BasicNode :=
  {| BN_Node := nd; BN_Log := Named (BC_Log c) "basic_node" |}.

(** The implementation under the [*BasicNode] wrappers of a node value,
    if there is one. *)
Fixpoint underlying (n : Node) : option NodeImpl :=
  match n with
  | NilNode => None
  | ImplNode impl => Some impl
  | BasicNodePtr inner _ => underlying inner
  end.

Definition root_logger : Logger := {| logger_path := [] |}.

(** A node whose processes start and exit with [code], [Wait] returning
    [err] next to it; it has a [RootDir] method when [dir] is given. *)
Definition exiting_node (code : Z) (err : go_error) (dir : option string) : NodeImpl :=
  {| StartProc := fun _ => (Some {| Wait := (code, err) |}, None);
     rootDirer := dir |}.

Definition basic_node (impl : NodeImpl) : BasicNode :=
  {| BN_Node := ImplNode impl; BN_Log := root_logger |}.

Definition true_req : StartProcRequest :=
  {| Command := "false"; Args := []; Stdin := None |}.

(** A cluster whose [NewNodes] hands back [nodes] and [err] whatever the
    count asked for. *)
Definition fixed_cluster (nodes : list Node) (err : go_error) : BasicCluster :=
  {| BC_Cluster := {| Cluster_NewNodes := fun _ => (nodes, err) |};
     BC_Log := Named root_logger "basic_cluster" |}.

Definition some_node : Node := ImplNode (exiting_node 0 None None).

Definition partial_failure : error := ErrNew "creating Docker container".

End BasicSpec.

(* ===================================================================== *)
(** * Further inputs and properties of the wrapper                        *)
(* ===================================================================== *)

Module BasicCover.

Import Basic BasicSpec.
Local Open Scope string_scope.
Local Open Scope Z_scope.

Definition connection_reset : error := ErrNew "connection reset by peer".

(** A node on which no process can be started. *)
Definition unstartable_node (err : error) : NodeImpl :=
  {| StartProc := fun _ => (None, Some err); rootDirer := None |}.

(** Every option of the list is a [WithLogger]. *)
Definition logger_options (opts : list Option) : Prop :=
  Forall (fun o => exists l, o = WithLogger l) opts.

Definition test_logger : Logger := {| logger_path := ["test"] |}.

End BasicCover.

(* ===================================================================== *)
(** * The runs of the Docker cluster's functions                          *)
(* ===================================================================== *)

Module DockerCover.

Import Docker DockerSpec.
Local Open Scope string_scope.
Local Open Scope Z_scope.
Local Open Scope list_scope.

(** ** A logic of runs

    [wp panic_ok p post]: whatever the collaborators answer, a run of [p]
    that returns [r] after the calls [tr] satisfies [post tr r]; a run may
    panic only if [panic_ok] holds. *)
Fixpoint wp {R} (panic_ok : Prop) (p : Prog R) (post : list call -> R -> Prop) : Prop :=
  match p with
  | Ret r => post [] r
  | Panic _ => panic_ok
  | Vis e k => forall x, wp panic_ok (k x) (fun tr r => post (Call e x :: tr) r)
  end.

(** [rand.Intn(n)] is in [[0, n)] for a positive [n]: the worlds that keep
    this contract. *)
Definition Intn_in_range {W} (h : handler W) : Prop :=
  forall n w, 0 < n -> 0 <= fst (h _ (RandIntn n) w) < n.

Definition in_chars (ch : ascii) : bool :=
  existsb (Ascii.eqb ch) (list_ascii_of_string chars).

Definition is_RandIntn (cl : call) : bool :=
  match cl with
  | Call e _ => match e with RandIntn n => (n =? len chars) | _ => false end
  end.

(** ** The runs of NewCluster *)

(** The calls, the cluster and the error of a run of
    [NewCluster(baseImage)]: the three ways the function can go. *)
Inductive NewCluster_run (baseImage : string)
  : list call -> option Cluster -> go_error -> Prop :=
| new_client_fails dcl e :
    NewCluster_run baseImage
      [Call NewClientWithOpts (dcl, Some e)]
      None (Some (Errorf "building Docker client: %w" [ArgErr (Some e)]))
| new_cert_fails dcl cert e :
    NewCluster_run baseImage
      [Call NewClientWithOpts (dcl, None); Call GenerateCert (cert, Some e)]
      None (Some (Errorf "generating TLS cert: %w" [ArgErr (Some e)]))
| new_ok dcl cert prefix draws :
    String.length prefix = 6%nat ->
    forallb in_chars (list_ascii_of_string prefix) = true ->
    List.length draws = 6%nat ->
    forallb is_RandIntn draws = true ->
    NewCluster_run baseImage
      (Call NewClientWithOpts (dcl, None) :: Call GenerateCert (cert, None) :: draws)
      (Some {| Cert := cert; BaseImage := baseImage; ContainerPrefix := prefix;
               DockerClient_ := dcl; Nodes := []; imagePulled := false |})
      None.

(** ** The runs of ensureImagePulled *)

(** The calls, the cluster afterwards and the error of a run of
    [ensureImagePulled] on [c]. *)
Inductive pull_run (c : Cluster) : list call -> Cluster -> go_error -> Prop :=
| pull_cached :
    imagePulled c = true ->
    pull_run c [] c None
| pull_refused e :
    imagePulled c = false ->
    pull_run c [Call (ImagePull (DockerClient_ c) (BaseImage c)) (PullErr None e)]
             c (Some e)
| pull_refused_body out e :
    imagePulled c = false ->
    pull_run c [Call (ImagePull (DockerClient_ c) (BaseImage c)) (PullErr (Some out) e);
                Call (Close out) tt]
             c (Some e)
| pull_read_error out e :
    imagePulled c = false ->
    pull_run c [Call (ImagePull (DockerClient_ c) (BaseImage c)) (PullOk out);
                Call (CopyDiscard out) (Some e);
                Call (Close out) tt]
             c (Some (Errorf "reading Docker pull response: %w" [ArgErr (Some e)]))
| pull_done out :
    imagePulled c = false ->
    pull_run c [Call (ImagePull (DockerClient_ c) (BaseImage c)) (PullOk out);
                Call (CopyDiscard out) None;
                Call (Close out) tt]
             (set_imagePulled c true) None.

(** The bodies a trace has received from [ImagePull], and the bodies it
    has closed, each in order. *)
Definition body_of (cl : call) : list ReadCloser :=
  match cl with
  | Call e x =>
      match e in ev X return X -> list ReadCloser with
      | ImagePull _ _ =>
          fun r => match r with
                   | PullOk out => [out]
                   | PullErr (Some out) _ => [out]
                   | PullErr None _ => []
                   end
      | _ => fun _ => []
      end x
  end.

Definition closed_of (cl : call) : list ReadCloser :=
  match cl with
  | Call e _ => match e with Close out => [out] | _ => [] end
  end.

Definition bodies (tr : list call) : list ReadCloser := flat_map body_of tr.
Definition closes (tr : list call) : list ReadCloser := flat_map closed_of tr.

(** The image pulls a trace has read to the end without error. *)
Definition completes_pull (cl : call) : bool :=
  match cl with
  | Call e x =>
      match e in ev X return X -> bool with
      | CopyDiscard _ => fun r => match r with None => true | Some _ => false end
      | _ => fun _ => false
      end x
  end.

Definition pulls_completed (tr : list call) : nat :=
  List.length (filter completes_pull tr).

Definition is_ImagePull (cl : call) : bool :=
  match cl with
  | Call e _ => match e with ImagePull _ _ => true | _ => false end
  end.

(** The [ImagePull] calls of a trace. *)
Definition pull_attempts (tr : list call) : nat :=
  List.length (filter is_ImagePull tr).

(** A call that neither pulls, reads nor closes a body. *)
Definition quiet (cl : call) : Prop :=
  closed_of cl = [] /\ body_of cl = []
  /\ completes_pull cl = false /\ is_ImagePull cl = false.

(** ** The runs of NewNodes *)

Fixpoint zseq (start : Z) (count : nat) : list Z :=
  match count with
  | O => []
  | S k => start :: zseq (start + 1) k
  end.

Definition container_name (c : Cluster) (id : Z) : string :=
  ("clustertest-" ++ ContainerPrefix c ++ "-" ++ Itoa id)%string.

(** A node as [NewNodes] on [c] builds it. *)
Definition node_of (c : Cluster) (nd : node) : Prop :=
  ContainerName nd = container_name c (ID nd)
  /\ dockerClient_ nd = DockerClient_ c
  /\ Env nd = [].

(** The container [NewNodes] on [c] creates under [name], its agent port
    bound to the host port [port]. *)
Definition create_call (bin : string) (c : Cluster) (name : string) (port : Z)
  : ev (string * go_error) :=
  ContainerCreate (DockerClient_ c)
    {| Image := BaseImage c; Entrypoint := entrypoint c; ExposedPorts := ["8080"] |}
    {| Binds := [(bin ++ ":/nodeagent")%string];
       PortBindings := [("8080", [{| HostIP := "0.0.0.0"; HostPort_ := Itoa port |}])] |}
    name.

(** The four calls by which a node was provisioned. *)
Definition node_calls (bin : string) (c : Cluster) (nd : node) : list call :=
  [Call GetEphemeralTCPPort (HostPort nd, None);
   Call (create_call bin c (ContainerName nd) (HostPort nd)) (ContainerID nd, None);
   Call (ContainerStart (DockerClient_ c) (ContainerID nd)) None;
   Call (NewClient (Cert c) "127.0.0.1" (HostPort nd)) (agentClient nd, None)].

(** The calls of an iteration that fails for the node numbered [id], and
    the error the function returns then. *)
Inductive failed_node (bin : string) (c : Cluster) (id : Z) : list call -> error -> Prop :=
| fail_port port e :
    failed_node bin c id
      [Call GetEphemeralTCPPort (port, Some e)]
      (Errorf "acquiring ephemeral port: %w" [ArgErr (Some e)])
| fail_create port cid e :
    failed_node bin c id
      [Call GetEphemeralTCPPort (port, None);
       Call (create_call bin c (container_name c id) port) (cid, Some e)]
      (Errorf "creating Docker container: %w" [ArgErr (Some e)])
| fail_start port cid e :
    failed_node bin c id
      [Call GetEphemeralTCPPort (port, None);
       Call (create_call bin c (container_name c id) port) (cid, None);
       Call (ContainerStart (DockerClient_ c) cid) (Some e)]
      (Errorf "starting container %q: %w" [ArgStr cid; ArgErr (Some e)])
| fail_client port cid ac e :
    failed_node bin c id
      [Call GetEphemeralTCPPort (port, None);
       Call (create_call bin c (container_name c id) port) (cid, None);
       Call (ContainerStart (DockerClient_ c) cid) None;
       Call (NewClient (Cert c) "127.0.0.1" port) (ac, Some e)]
      (Errorf "building nodeagent client: %w" [ArgErr (Some e)]).

(** The nodes numbered from [start] on, built as [NewNodes] on [c] builds
    them. *)
Definition numbered_from (c : Cluster) (start : Z) (nodes : list node) : Prop :=
  map ID nodes = zseq start (List.length nodes) /\ Forall (node_of c) nodes.

Definition wait_calls (nodes : list node) (answers : list go_error) : list call :=
  map (fun na => Call (WaitForServer (agentClient (fst na))) (snd na))
      (combine nodes answers).

Definition startID (c : Cluster) : Z := Z.of_nat (List.length (Nodes c)).

(** The calls, the cluster afterwards, the nodes and the error of a run of
    [NewNodes(ctx, n)] on [c]: the five ways the function can go. *)
Inductive NewNodes_run (c : Cluster) (n : Z)
  : list call -> Cluster -> list node -> go_error -> Prop :=
| run_getwd_fails wd e :
    NewNodes_run c n
      [Call Getwd (wd, Some e)]
      c [] (Some (Errorf "getting wd: %w" [ArgErr (Some e)]))
| run_no_agent wd :
    NewNodes_run c n
      [Call Getwd (wd, None); Call (FindUp "nodeagent" wd) ""]
      c [] (Some (ErrNew "unable to find nodeagent bin"))
| run_pull_fails wd bin tpull c1 e :
    bin <> "" ->
    pull_run c tpull c1 (Some e) ->
    NewNodes_run c n
      (Call Getwd (wd, None) :: Call (FindUp "nodeagent" wd) bin :: tpull)
      c1 [] (Some (Errorf "pulling image: %w" [ArgErr (Some e)]))
| run_provision_fails wd bin tpull c1 made tfail e :
    bin <> "" ->
    pull_run c tpull c1 None ->
    numbered_from c (startID c) made ->
    (List.length made < Z.to_nat n)%nat ->
    failed_node bin c (startID c + Z.of_nat (List.length made)) tfail e ->
    NewNodes_run c n
      (Call Getwd (wd, None) :: Call (FindUp "nodeagent" wd) bin
         :: tpull ++ flat_map (node_calls bin c) made ++ tfail)
      (set_Nodes c1 (Nodes c ++ made)) [] (Some e)
| run_ok wd bin tpull c1 made answers :
    bin <> "" ->
    pull_run c tpull c1 None ->
    numbered_from c (startID c) made ->
    List.length made = Z.to_nat n ->
    List.length answers = List.length made ->
    NewNodes_run c n
      (Call Getwd (wd, None) :: Call (FindUp "nodeagent" wd) bin
         :: tpull ++ flat_map (node_calls bin c) made ++ wait_calls made answers)
      (set_Nodes c1 (Nodes c ++ made)) made None.

(** The node numbers of a cluster are the positions of its nodes. *)
Definition ids_ok (c : Cluster) : Prop :=
  map ID (Nodes c) = zseq 0 (List.length (Nodes c)).

(** Two clusters that differ at most in their nodes and in whether the
    image has been pulled. *)
Definition same_config (c c' : Cluster) : Prop :=
  Cert c' = Cert c /\ BaseImage c' = BaseImage c
  /\ ContainerPrefix c' = ContainerPrefix c /\ DockerClient_ c' = DockerClient_ c.

(** What a run with trace [tr] that takes cluster [c] to [c'] keeps: every
    pull body received is closed once and nothing else is; the image is
    marked pulled exactly by a pull read to the end, and is not pulled
    again once marked; the nodes registered are kept and the node numbers
    stay the positions. *)
Definition keeps (tr : list call) (c c' : Cluster) : Prop :=
  closes tr = bodies tr
  /\ Nat.b2n (imagePulled c') = (Nat.b2n (imagePulled c) + pulls_completed tr)%nat
  /\ same_config c c'
  /\ (imagePulled c = true -> pull_attempts tr = 0%nat)
  /\ (exists made, Nodes c' = Nodes c ++ made)
  /\ (ids_ok c -> ids_ok c').

(** ** Worlds with scripted failures *)

Definition no_route : error := ErrNew "no route to host".

(** Like a world in which everything succeeds, except that the call
    numbered [w] fails (or, for [FindUp], finds nothing) when [bad w]. *)
Definition scripted_world (bad : nat -> bool) : handler nat :=
  fun X e w =>
    let err := if bad w then Some no_route else None in
    match e in ev X return X * nat with
    | NewClientWithOpts => ((dockerClient 0, err), S w)
    | GenerateCert => ((test_cert, err), S w)
    | RandIntn n => (Z.of_nat w mod n, S w)
    | Getwd => (("/repo", err), S w)
    | FindUp _ wd => (if bad w then "" else (wd ++ "/nodeagent")%string, S w)
    | ImagePull _ _ =>
        (if bad w then PullErr (Some (readCloser w)) no_route else PullOk (readCloser w), S w)
    | CopyDiscard _ => (err, S w)
    | Close _ => (tt, S w)
    | GetEphemeralTCPPort => ((40000 + Z.of_nat w, err), S w)
    | ContainerCreate _ _ _ name => ((("id-" ++ name)%string, err), S w)
    | ContainerStart _ _ => (err, S w)
    | NewClient _ _ _ => ((agentClient_ w, err), S w)
    | WaitForServer _ => (err, S w)
    end.

Definition never : nat -> bool := fun _ => false.
Definition only (k : nat) : nat -> bool := fun w => Nat.eqb w k.

(** The errors [NewNodes] raises before its loop. *)
Definition early_error (e : error) : Prop :=
  e = ErrNew "unable to find nodeagent bin"
  \/ (exists inner, e = Errorf "getting wd: %w" [ArgErr (Some inner)])
  \/ (exists inner, e = Errorf "pulling image: %w" [ArgErr (Some inner)]).

(** The calls that acquire a port, create or start a container, build an
    agent client or wait for an agent. *)
Definition is_provisioning (cl : call) : bool :=
  match cl with
  | Call e _ =>
      match e with
      | GetEphemeralTCPPort => true
      | ContainerCreate _ _ _ _ => true
      | ContainerStart _ _ => true
      | NewClient _ _ _ => true
      | WaitForServer _ => true
      | _ => false
      end
  end.

Definition is_wait (cl : call) : bool :=
  match cl with Call e _ => is_WaitForServer e end.

(** The cluster and the nodes a run hands back, [test_cluster] and no node
    when it hands back none. *)
Definition cluster_after (r : outcome (Cluster * (list node * go_error))) : Cluster :=
  match r with Returns (c, _) => c | Panics _ => test_cluster end.

Definition nodes_after (r : outcome (Cluster * (list node * go_error))) : list node :=
  match r with Returns (_, (nodes, _)) => nodes | Panics _ => [] end.

(** [NewNodes(ctx, 2)] on the test cluster in a world without failures,
    and in one where starting the second container fails. *)
Definition two_nodes : outcome (Cluster * (list node * go_error)) :=
  result_of (exec (scripted_world never) (NewNodes test_cluster 2) 0%nat).

Definition second_start_fails : outcome (Cluster * (list node * go_error)) :=
  result_of (exec (scripted_world (only 11)) (NewNodes test_cluster 2) 0%nat).

Definition start_refused : error :=
  Errorf "starting container %q: %w" [ArgStr "id-clustertest-cefghi-1"; ArgErr (Some no_route)].

End DockerCover.

(* ===================================================================== *)
(** * The wrapper: facts                                                  *)
(* ===================================================================== *)

Module BasicFacts.

Import Basic BasicSpec.
Local Open Scope string_scope.
Local Open Scope Z_scope.
Local Open Scope list_scope.

Lemma fold_left_snoc {A B} (f : A -> B) (l : list A) (acc : list B) :
  fold_left (fun acc x => acc ++ [f x]) l acc = acc ++ map f l.
Proof.
  revert acc. induction l as [|x l IH]; intros acc; simpl.
  - now rewrite app_nil_r.
  - rewrite IH, <- app_assoc. reflexivity.
Qed.

Lemma NewNodes_eq (c : BasicCluster) (n : Z) :
  NewNodes c n
  = (map (wrap c) (fst (Cluster_NewNodes (BC_Cluster c) n)),
     snd (Cluster_NewNodes (BC_Cluster c) n)).
Proof.
  unfold NewNodes. destruct (Cluster_NewNodes (BC_Cluster c) n) as [nodes err].
  simpl. f_equal. apply (fold_left_snoc (wrap c) nodes []).
Qed.

(** ** Run *)

Example Run_exit_0 : Run (basic_node (exiting_node 0 None None)) true_req = Returns (0, None).
Proof. reflexivity. Qed.

Example Run_exit_3 :
  Run (basic_node (exiting_node 3 None None)) true_req
  = Returns (-1, Some (Errorf "non-zero exit code %d: %w" [ArgInt 3; ArgErr None])).
Proof. reflexivity. Qed.

(** A start failure is handed back as it is, next to -1. *)
Lemma Run_start_error (n : BasicNode) (req : StartProcRequest) p e :
  Node_StartProc (BN_Node n) req = Returns (p, Some e) ->
  Run n req = Returns (-1, Some e).
Proof. intros H. unfold Run. rewrite H. destruct p; reflexivity. Qed.

(** C1, as stated, fails: a process that starts and exits with code 1,
    its wait reporting no error, makes [BasicNode.Run] return -1 and a
    non-nil error, not [(1, nil)]. *)
Lemma Run_nonzero_exit_is_error :
  Node_StartProc (BN_Node (basic_node (exiting_node 1 None None))) true_req
    = Returns (Some {| Wait := (1, None) |}, None)
  /\ Run (basic_node (exiting_node 1 None None)) true_req
     = Returns (-1, Some (Errorf "non-zero exit code %d: %w" [ArgInt 1; ArgErr None]))
  /\ Run (basic_node (exiting_node 1 None None)) true_req <> Returns (1, None).
Proof. repeat split. discriminate. Qed.

(** C1, amended: when the process starts and its wait yields [code],
    [BasicNode.Run] returns [(0, nil)] for exit code 0 (the wait reporting
    no error), and for every non-zero code it returns -1 with an error
    "non-zero exit code" that carries the code and wraps the wait's
    error. *)
Theorem Run_exit_code (n : BasicNode) (req : StartProcRequest)
        (p : Process) (code : Z) (err : go_error)
        (Hstart : Node_StartProc (BN_Node n) req = Returns (Some p, None))
        (Hwait : Wait p = (code, err)) :
  (code = 0 -> err = None -> Run n req = Returns (0, None))
  /\ (code <> 0 ->
      Run n req
      = Returns (-1, Some (Errorf "non-zero exit code %d: %w" [ArgInt code; ArgErr err]))).
Proof.
  unfold Run. rewrite Hstart, Hwait. split.
  - intros -> _. reflexivity.
  - intros Hc. apply Z.eqb_neq in Hc. rewrite Hc. reflexivity.
Qed.

Lemma Run_exit_code_witness :
  Run (basic_node (exiting_node 2 None None)) true_req
  = Returns (-1, Some (Errorf "non-zero exit code %d: %w" [ArgInt 2; ArgErr None])).
Proof.
  apply (proj2 (@Run_exit_code (basic_node (exiting_node 2 None None)) true_req
                               {| Wait := (2, None) |} 2 None eq_refl eq_refl)).
  discriminate.
Defined.

(** ** NewNode *)

Lemma NewNode_error (c : BasicCluster) nodes e :
  Cluster_NewNodes (BC_Cluster c) 1 = (nodes, Some e) ->
  NewNode c = Returns (None, Some e).
Proof. intros H. unfold NewNode. rewrite NewNodes_eq, H. reflexivity. Qed.

Lemma NewNode_first (c : BasicCluster) nd rest :
  Cluster_NewNodes (BC_Cluster c) 1 = (nd :: rest, None) ->
  NewNode c = Returns (Some (wrap c (asNode (wrap c nd))), None).
Proof. intros H. unfold NewNode. rewrite NewNodes_eq, H. reflexivity. Qed.

(** C8: [BasicCluster.NewNode] panics exactly when the wrapped cluster's
    [NewNodes(ctx, 1)] returns a nil error and no node; with an error it
    returns that error, and with a nil error and a first node it returns
    that node's wrapper. *)
Theorem NewNode_panics_iff (c : BasicCluster) :
  ((exists reason, NewNode c = Panics reason)
   <-> Cluster_NewNodes (BC_Cluster c) 1 = ([], None))
  /\ (forall nodes e,
        Cluster_NewNodes (BC_Cluster c) 1 = (nodes, Some e) ->
        NewNode c = Returns (None, Some e))
  /\ (forall nd rest,
        Cluster_NewNodes (BC_Cluster c) 1 = (nd :: rest, None) ->
        NewNode c = Returns (Some (wrap c (asNode (wrap c nd))), None)).
Proof.
  split; [|split; [apply NewNode_error | apply NewNode_first]].
  unfold NewNode. rewrite NewNodes_eq.
  destruct (Cluster_NewNodes (BC_Cluster c) 1) as [nodes [e|]]; simpl.
  - split; [intros [r H]; discriminate | discriminate].
  - destruct nodes as [|nd rest]; simpl.
    + split; [reflexivity | intros _; eexists; reflexivity].
    + split; [intros [r H]; discriminate | discriminate].
Qed.

Lemma NewNode_panics_witness :
  exists reason, NewNode (fixed_cluster [] None) = Panics reason.
Proof.
  apply (proj2 (proj1 (NewNode_panics_iff (fixed_cluster [] None)))). reflexivity.
Defined.

(** ** NewNodes *)

(** C9: [BasicCluster.NewNodes] returns one wrapper per node of the
    underlying result, in order, next to the underlying error, whether
    that error is nil or not; a call can so return nodes and an error
    together. *)
Theorem NewNodes_not_atomic :
  (forall (c : BasicCluster) (n : Z),
      NewNodes c n
      = (map (wrap c) (fst (Cluster_NewNodes (BC_Cluster c) n)),
         snd (Cluster_NewNodes (BC_Cluster c) n)))
  /\ (forall (c : BasicCluster) (n : Z),
        map BN_Node (fst (NewNodes c n)) = fst (Cluster_NewNodes (BC_Cluster c) n))
  /\ NewNodes (fixed_cluster [some_node; NilNode] (Some partial_failure)) 2
     = ([wrap (fixed_cluster [] None) some_node; wrap (fixed_cluster [] None) NilNode],
        Some partial_failure).
Proof.
  split; [exact NewNodes_eq|]. split; [|reflexivity].
  intros c n. rewrite NewNodes_eq. simpl.
  rewrite map_map. simpl. apply map_id.
Qed.

(** ** RootDir *)

Lemma RootDir_underlying_node (n : Node) :
  match Node_RootDir n with Some d => d | None => "/" end
  = match underlying n with
    | Some impl => match rootDirer impl with Some d => d | None => "/" end
    | None => "/"
    end.
Proof.
  induction n as [|impl|inner IH log]; simpl; auto.
Qed.

(** C10: [BasicNode.RootDir] returns what the wrapped node's [RootDir]
    method returns when the node's dynamic type has that method, and "/"
    when it has not; through [*BasicNode] wrappers this is the method of
    the implementation underneath. *)
Theorem RootDir_probe (n : BasicNode) :
  RootDir n = match Node_RootDir (BN_Node n) with
              | Some d => d
              | None => "/"
              end
  /\ RootDir n = match underlying (BN_Node n) with
                 | Some impl => match rootDirer impl with Some d => d | None => "/" end
                 | None => "/"
                 end
  /\ (forall impl d, BN_Node n = ImplNode impl -> rootDirer impl = Some d -> RootDir n = d)
  /\ (forall impl, BN_Node n = ImplNode impl -> rootDirer impl = None -> RootDir n = "/")
  /\ (forall inner log, BN_Node n = BasicNodePtr inner log ->
                        RootDir n = RootDir {| BN_Node := inner; BN_Log := log |}).
Proof.
  split; [reflexivity|]. split; [apply RootDir_underlying_node|].
  unfold RootDir. repeat split.
  - intros impl d -> H. simpl. now rewrite H.
  - intros impl -> H. simpl. now rewrite H.
  - intros inner log ->. reflexivity.
Qed.

Example RootDir_of_NewNode :
  NewNode (fixed_cluster [ImplNode (exiting_node 0 None (Some "/data"))] None)
  = Returns (Some (wrap (fixed_cluster [] None)
              (asNode (wrap (fixed_cluster [] None)
                 (ImplNode (exiting_node 0 None (Some "/data")))))), None)
  /\ RootDir (wrap (fixed_cluster [] None)
              (asNode (wrap (fixed_cluster [] None)
                 (ImplNode (exiting_node 0 None (Some "/data")))))) = "/data".
Proof. split; reflexivity. Qed.

End BasicFacts.

(* ===================================================================== *)
(** * The Docker cluster: facts                                           *)
(* ===================================================================== *)

Module DockerFacts.

Import Docker DockerSpec.
Local Open Scope string_scope.
Local Open Scope Z_scope.
Local Open Scope list_scope.
Local Open Scope prog_scope.

(** ** base64 on the RFC 4648 test vectors *)

Example EncodeToString_vectors :
  map (fun s => EncodeToString (list_byte_of_string s))
      [""; "f"; "fo"; "foo"; "foob"; "fooba"; "foobar"]
  = [""; "Zg=="; "Zm8="; "Zm9v"; "Zm9vYg=="; "Zm9vYmE="; "Zm9vYmFy"].
Proof. reflexivity. Qed.

Example EncodeToString_high_bytes : EncodeToString [xff; xfe; xfd; x00; x01] = "//79AAE=".
Proof. reflexivity. Qed.

(** ** The program logic *)

Section Sat.

Variable Q : forall X, ev X -> Prop.

Lemma sat_bind {A B} (mid : A -> Prop) (post : B -> Prop) (p : Prog A) (f : A -> Prog B) :
  sat Q mid p -> (forall a, mid a -> sat Q post (f a)) -> sat Q post (bind p f).
Proof.
  intros Hp Hf. induction p as [a|r|X e k IH]; simpl in *.
  - now apply Hf.
  - exact I.
  - destruct Hp as [He Hk]. split; [exact He|]. intros x. apply IH, Hk.
Qed.

Lemma sat_mono {A} (post post' : A -> Prop) (p : Prog A) :
  (forall a, post a -> post' a) -> sat Q post p -> sat Q post' p.
Proof.
  intros Himp. induction p as [a|r|X e k IH]; simpl; auto.
  intros [He Hk]. split; auto.
Qed.

Lemma sat_trigger {X} (e : ev X) (post : X -> Prop) :
  Q e -> (forall x, post x) -> sat Q post (trigger e).
Proof. intros He Hp. simpl. split; [exact He | exact Hp]. Qed.

(** Soundness: in every world, the calls of the run satisfy [Q] and a
    returned value satisfies the postcondition. *)
Lemma sat_exec {R W} (post : R -> Prop) (p : Prog R) (h : handler W) :
  sat Q post p ->
  forall w, Forall (call_sat Q) (trace_of (exec h p w))
            /\ (forall r, result_of (exec h p w) = Returns r -> post r).
Proof.
  induction p as [a|msg|X e k IH]; simpl; intros Hs w.
  - split; [constructor|]. intros r [= <-]. exact Hs.
  - split; [constructor|]. intros r [=].
  - destruct Hs as [He Hk].
    destruct (h X e w) as [x w1] eqn:Hh.
    specialize (IH x (Hk x) w1).
    destruct (exec h (k x) w1) as [[o w2] tr] eqn:Hx.
    unfold trace_of, result_of in *. simpl in *. destruct IH as [IHt IHr].
    split; [constructor; [exact He | exact IHt] | exact IHr].
Qed.

End Sat.

Lemma sat_calls_mono {A} (Q Q' : forall X, ev X -> Prop) (post : A -> Prop) (p : Prog A) :
  (forall X (e : ev X), Q X e -> Q' X e) -> sat Q post p -> sat Q' post p.
Proof.
  intros Himp. induction p as [a|r|X e k IH]; simpl; auto.
  intros [He Hk]. split; auto.
Qed.

Lemma provisioning_ok_launch_ok cert X (e : ev X) : provisioning_ok cert e -> launch_ok cert e.
Proof. intros [H _]. exact H. Qed.

(** The obligation of a call that neither creates a container, builds a
    client nor waits. *)
Ltac plain_call := split; [split; exact I | reflexivity].

Lemma exec_bind {A B W} (h : handler W) (p : Prog A) (f : A -> Prog B) (w : W) :
  exec h (bind p f) w
  = let '(o, w1, t1) := exec h p w in
    match o with
    | Returns a => let '(o2, w2, t2) := exec h (f a) w1 in (o2, w2, t1 ++ t2)
    | Panics r => (Panics r, w1, t1)
    end.
Proof.
  revert w. induction p as [a|r|X e k IH]; intros w; simpl.
  - destruct (exec h (f a) w) as [[o2 w2] t2]. reflexivity.
  - reflexivity.
  - destruct (h X e w) as [x w1]. rewrite IH.
    destruct (exec h (k x) w1) as [[o w2] t1].
    destruct o as [a|r]; [|reflexivity].
    destruct (exec h (f a) w2) as [[o2 w3] t2]. reflexivity.
Qed.

Lemma count_GenerateCert_app (t1 t2 : list call) :
  count_GenerateCert (t1 ++ t2) = (count_GenerateCert t1 + count_GenerateCert t2)%nat.
Proof. unfold count_GenerateCert. now rewrite filter_app, length_app. Qed.

Lemma count_GenerateCert_with_cert (cert : Certs) (tr : list call) :
  Forall (call_sat (with_cert cert)) tr -> count_GenerateCert tr = 0%nat.
Proof.
  unfold count_GenerateCert. induction 1 as [|cl tr Hc _ IH]; [reflexivity|].
  simpl. destruct cl as [X e x]. destruct e; simpl in *; try exact IH. contradiction.
Qed.

(** ** The calls of NewNodes *)

Lemma entrypoint_with_cert (c : Cluster) cl host name :
  with_cert (Cert c)
    (ContainerCreate cl {| Image := BaseImage c; Entrypoint := entrypoint c;
                           ExposedPorts := ["8080"] |} host name).
Proof. reflexivity. Qed.

Lemma entrypoint_self_destructs (c : Cluster) cl host name :
  self_destructs
    (ContainerCreate cl {| Image := BaseImage c; Entrypoint := entrypoint c;
                           ExposedPorts := ["8080"] |} host name).
Proof.
  split.
  - exists ["/nodeagent";
            "--ca-cert-pem"; EncodeToString (CA_CertPEMBytes (CA (Cert c)));
            "--cert-pem"; EncodeToString (CertPEMBytes (Server (Cert c)));
            "--key-pem"; EncodeToString (KeyPEMBytes (Server (Cert c)))],
           ["--listen-addr"; "0.0.0.0:8080"].
    reflexivity.
  - exists {| Agent.action := Agent.exit; Agent.health := Agent.Alive;
              Agent.process_running := true |}.
    repeat split.
Qed.

Lemma ensureImagePulled_sat (cert : Certs) (c : Cluster) :
  Cert c = cert ->
  sat (provisioning_ok cert) (fun r => Cert (fst r) = cert) (ensureImagePulled c).
Proof.
  intros Hc. unfold ensureImagePulled.
  destruct (imagePulled c); simpl; [exact Hc|].
  split; [plain_call|]. intros [out|out err]; simpl.
  - split; [plain_call|]. intros [e|]; simpl; (split; [plain_call|]); intros _; exact Hc.
  - destruct out as [o|]; simpl; [|exact Hc].
    split; [plain_call|]. intros _. exact Hc.
Qed.

Lemma provision_sat (cert : Certs) (bin : string) (startID : Z) (todo : nat) :
  forall (i : Z) (c : Cluster) (newNodes : list node),
    Cert c = cert ->
    sat (provisioning_ok cert) (fun r => Cert (fst (fst r)) = cert)
        (provision bin startID todo i c newNodes).
Proof.
  induction todo as [|todo IH]; intros i c newNodes Hc; simpl; [exact Hc|].
  split; [plain_call|]. intros [hostPort [e|]]; simpl; [exact Hc|].
  split.
  { split; [|reflexivity].
    split; [rewrite <- Hc; apply entrypoint_with_cert | apply entrypoint_self_destructs]. }
  intros [createID [e|]]; simpl; [exact Hc|].
  split; [plain_call|]. intros [e|]; simpl; [exact Hc|].
  split; [split; [split; [exact Hc | exact I] | reflexivity]|].
  intros [agentCl [e|]]; simpl; [exact Hc|].
  apply IH. exact Hc.
Qed.

Lemma waitAll_sat (cert : Certs) (newNodes : list node) (post : unit -> Prop) :
  post tt -> sat (launch_ok cert) post (waitAll newNodes).
Proof.
  intros Hp. induction newNodes as [|n rest IH]; simpl; [exact Hp|].
  split; [split; exact I|]. intros _. exact IH.
Qed.

Lemma NewNodes_sat (cert : Certs) (c : Cluster) (n : Z) :
  Cert c = cert ->
  sat (launch_ok cert) (fun r => Cert (fst r) = cert) (NewNodes c n).
Proof.
  intros Hc. unfold NewNodes. simpl.
  split; [split; exact I|]. intros [wd [e|]]; simpl; [exact Hc|].
  split; [split; exact I|]. intros bin.
  destruct (bin =? "")%string; simpl; [exact Hc|].
  apply sat_bind with (mid := fun r => Cert (fst r) = cert).
  { eapply sat_calls_mono; [apply provisioning_ok_launch_ok|].
    apply ensureImagePulled_sat; exact Hc. }
  intros [c1 [e|]] Hc1; simpl in *; [exact Hc1|].
  apply sat_bind with (mid := fun r => Cert (fst (fst r)) = cert).
  { eapply sat_calls_mono; [apply provisioning_ok_launch_ok|].
    apply provision_sat; exact Hc1. }
  intros [[c2 newNodes] [e|]] Hc2; simpl in *; [exact Hc2|].
  apply sat_bind with (mid := fun _ => True); [apply waitAll_sat; exact I|].
  intros _ _. exact Hc2.
Qed.

Lemma NewNodesSeq_sat (cert : Certs) (ns : list Z) :
  forall c, Cert c = cert ->
            sat (launch_ok cert) (fun c' => Cert c' = cert) (NewNodesSeq c ns).
Proof.
  induction ns as [|n ns IH]; intros c Hc; cbn [NewNodesSeq]; [exact Hc|].
  apply sat_bind with (mid := fun r => Cert (fst r) = cert);
    [apply NewNodes_sat; exact Hc|].
  intros r Hr. apply IH, Hr.
Qed.

Lemma Forall_launch_ok_with_cert cert (tr : list call) :
  Forall (call_sat (launch_ok cert)) tr -> Forall (call_sat (with_cert cert)) tr.
Proof.
  apply Forall_impl. intros [X e x]. simpl. unfold launch_ok. tauto.
Qed.

Lemma Forall_launch_ok_self_destructs cert (tr : list call) :
  Forall (call_sat (launch_ok cert)) tr -> Forall (call_sat self_destructs) tr.
Proof.
  apply Forall_impl. intros [X e x]. simpl. unfold launch_ok. tauto.
Qed.

(** ** One certificate set per cluster *)

Lemma randString_no_cert (n : nat) :
  sat (fun X (e : ev X) => match e with RandIntn _ => True | _ => False end)
      (fun _ => True) (randString n).
Proof.
  induction n as [|n IH]; [exact I|].
  cbn [randString]. unfold trigger. cbn [bind sat].
  split; [exact I|]. intros i.
  destruct (if (0 <=? i) && (i <? len chars) then String.get (Z.to_nat i) chars else None);
    [|exact I].
  apply sat_bind with (mid := fun _ => True); [exact IH|]. intros; exact I.
Qed.

Lemma randString_count (n : nat) W (h : handler W) (w : W) :
  count_GenerateCert (trace_of (exec h (randString n) w)) = 0%nat.
Proof.
  pose proof (proj1 (@sat_exec _ _ _ _ _ h (randString_no_cert n) w)) as H.
  unfold count_GenerateCert.
  induction H as [|cl tr Hc _ IH]; [reflexivity|].
  simpl. destruct cl as [X e x]. destruct e; simpl in *; try contradiction. exact IH.
Qed.

(** [NewCluster], when it succeeds, has generated exactly one certificate
    set and holds it. *)
Lemma NewCluster_generates_once W (h : handler W) (w w1 : W) baseImage opts c tr :
  exec h (NewCluster baseImage opts) w = (Returns (Some c, None), w1, tr) ->
  count_GenerateCert tr = 1%nat /\ In (Call GenerateCert (Cert c, None)) tr.
Proof.
  unfold NewCluster. cbn -[randString].
  destruct (h _ NewClientWithOpts w) as [[dcl [e|]] wa]; cbn -[randString]; [intros [=]|].
  destruct (h _ GenerateCert wa) as [[cert [e|]] wb]; cbn -[randString]; [intros [=]|].
  rewrite exec_bind.
  pose proof (randString_count 6 h wb) as Hcount.
  destruct (exec h (randString 6) wb) as [[o wc] t1]. unfold trace_of in Hcount.
  simpl in Hcount.
  destruct o as [prefix|r]; simpl; intros [= <- <- <-].
  split.
  - change (count_GenerateCert
              (Call NewClientWithOpts (dcl, None)
                 :: Call GenerateCert (cert, None) :: t1 ++ [])) with
      (S (count_GenerateCert (t1 ++ []))).
    now rewrite count_GenerateCert_app, Hcount.
  - simpl. right. left. reflexivity.
Qed.

(** C3: a cluster that [NewCluster] has built generated exactly one
    certificate set while being built, and holds it; in every succession of
    [NewNodes] calls on that cluster, in every world, no certificate is
    generated, every container is created with that set's PEM blocks
    (base64-encoded) as the agent's certificate flags, every agent client
    is built from that set, and the cluster goes on holding it. *)
Theorem one_certificate_set W (h : handler W) (w w1 : W)
        (baseImage : string) (opts : list (Cluster -> Cluster)) (c : Cluster) (tr : list call)
        (Hnew : exec h (NewCluster baseImage opts) w = (Returns (Some c, None), w1, tr)) :
  count_GenerateCert tr = 1%nat
  /\ In (Call GenerateCert (Cert c, None)) tr
  /\ forall (ns : list Z) W' (h' : handler W') (w' : W'),
       Forall (call_sat (with_cert (Cert c))) (trace_of (exec h' (NewNodesSeq c ns) w'))
       /\ count_GenerateCert (trace_of (exec h' (NewNodesSeq c ns) w')) = 0%nat
       /\ (forall c', result_of (exec h' (NewNodesSeq c ns) w') = Returns c' ->
                      Cert c' = Cert c).
Proof.
  destruct (NewCluster_generates_once _ _ _ _ Hnew) as [Hcount Hin].
  split; [exact Hcount|]. split; [exact Hin|].
  intros ns W' h' w'.
  destruct (@sat_exec _ _ _ _ _ h' (@NewNodesSeq_sat (Cert c) ns c eq_refl) w') as [Htr Hres].
  apply Forall_launch_ok_with_cert in Htr.
  split; [exact Htr|]. split; [|exact Hres].
  eapply count_GenerateCert_with_cert; exact Htr.
Qed.

(** C4: in every world, every container that [NewNodes] creates starts the
    agent with [--on-heartbeat-failure exit]; an agent started with that
    entrypoint has the failure action [exit], and when its heartbeat
    deadline elapses it is dead and no longer running. *)
Theorem nodes_self_destruct (c : Cluster) (n : Z) W (h : handler W) (w : W) :
  Forall (call_sat self_destructs) (trace_of (exec h (NewNodes c n) w)).
Proof.
  apply Forall_launch_ok_self_destructs with (cert := Cert c).
  apply (@sat_exec _ _ _ _ _ h (@NewNodes_sat (Cert c) c n eq_refl) w).
Qed.

Lemma one_certificate_set_witness :
  count_GenerateCert test_cluster_calls = 1%nat
  /\ In (Call GenerateCert (Cert test_cluster, None)) test_cluster_calls
  /\ forall (ns : list Z) W' (h' : handler W') (w' : W'),
       Forall (call_sat (with_cert (Cert test_cluster)))
              (trace_of (exec h' (NewNodesSeq test_cluster ns) w'))
       /\ count_GenerateCert (trace_of (exec h' (NewNodesSeq test_cluster ns) w')) = 0%nat
       /\ (forall c', result_of (exec h' (NewNodesSeq test_cluster ns) w') = Returns c' ->
                      Cert c' = Cert test_cluster).
Proof.
  apply (@one_certificate_set nat unreachable_world 0%nat 8%nat "ubuntu" []
                              test_cluster test_cluster_calls).
  vm_compute. reflexivity.
Defined.

(** ** Readiness *)

(** C2 fails on the code: with every provisioning call succeeding and
    [WaitForServer] returning "context deadline exceeded" for the one new
    node, [NewNodes(ctx, 1)] returns that node and a nil error. *)
Lemma NewNodes_drops_WaitForServer_error :
  In (Call (WaitForServer (agentClient test_node)) (Some deadline_exceeded))
     (trace_of (exec unreachable_world (NewNodes test_cluster 1) 0%nat))
  /\ result_of (exec unreachable_world (NewNodes test_cluster 1) 0%nat)
     = Returns (set_imagePulled (set_Nodes test_cluster [test_node]) true,
                ([test_node], None)).
Proof.
  split.
  - vm_compute. repeat (first [left; reflexivity | right]).
  - vm_compute. reflexivity.
Qed.

(** Once a program has called [WaitForServer], what it returns
    satisfies the postcondition of [after_wait]. *)
Lemma after_wait_exec {R W} (post : R -> Prop) (p : Prog R) (h : handler W) :
  after_wait post p ->
  forall w, called_WaitForServer (trace_of (exec h p w)) = true ->
            forall r, result_of (exec h p w) = Returns r -> post r.
Proof.
  induction p as [a|msg|X e k IH]; simpl; intros Ha w.
  - discriminate.
  - discriminate.
  - destruct (h X e w) as [x w1] eqn:Hh.
    destruct (is_WaitForServer e) eqn:Hw.
    + intros _ r Hr.
      destruct (@sat_exec any_call _ _ post (k x) h (Ha x) w1) as [_ Hpost].
      destruct (exec h (k x) w1) as [[o w2] tr]. apply Hpost. exact Hr.
    + specialize (IH x (Ha x) w1).
      destruct (exec h (k x) w1) as [[o w2] tr]. unfold trace_of, result_of in *.
      simpl in *. rewrite Hw. simpl. exact IH.
Qed.

Lemma after_wait_bind {A B} cert (mid : A -> Prop) (post : B -> Prop)
      (p : Prog A) (f : A -> Prog B) :
  sat (provisioning_ok cert) mid p ->
  (forall a, mid a -> after_wait post (f a)) ->
  after_wait post (bind p f).
Proof.
  intros Hp Hf. induction p as [a|r|X e k IH]; simpl in *.
  - now apply Hf.
  - exact I.
  - destruct Hp as [[_ Hw] Hk]. rewrite Hw. intros x. apply IH, Hk.
Qed.

Lemma waitAll_any (newNodes : list node) (post : unit -> Prop) :
  post tt -> sat any_call post (waitAll newNodes).
Proof.
  intros Hp. induction newNodes as [|n rest IH]; simpl; [exact Hp|].
  split; [exact I|]. intros _. exact IH.
Qed.

Lemma after_wait_of_sat {R} (post : R -> Prop) (p : Prog R) :
  sat any_call post p -> after_wait post p.
Proof.
  induction p as [a|r|X e k IH]; simpl; auto.
  intros [_ Hk]. destruct (is_WaitForServer e); auto.
Qed.

(** What [WaitForServer] answers never reaches the caller: in every world,
    a call of [NewNodes] that has called [WaitForServer] returns a nil
    error. *)
Lemma NewNodes_nil_error_after_wait (c : Cluster) (n : Z) W (h : handler W) (w : W) :
  called_WaitForServer (trace_of (exec h (NewNodes c n) w)) = true ->
  forall c' nodes err,
    result_of (exec h (NewNodes c n) w) = Returns (c', (nodes, err)) -> err = None.
Proof.
  intros Hcalled c' nodes err Hres.
  apply (@after_wait_exec _ _ (fun r => snd (snd r) = None) (NewNodes c n) h)
    with (w := w) (r := (c', (nodes, err))); [|exact Hcalled|exact Hres].
  clear. unfold NewNodes. simpl.
  intros [wd [e|]]; simpl; [exact I|]. intros bin.
  destruct (bin =? "")%string; simpl; [exact I|].
  apply after_wait_bind with (cert := Cert c) (mid := fun r => Cert (fst r) = Cert c);
    [apply ensureImagePulled_sat; reflexivity|].
  intros [c1 [e|]] Hc1; simpl in *; [exact I|].
  apply after_wait_bind with (cert := Cert c) (mid := fun _ => True).
  { eapply sat_mono; [|apply provision_sat; exact Hc1]. auto. }
  intros [[c2 newNodes] [e|]] _; simpl; [exact I|].
  apply after_wait_of_sat.
  apply sat_bind with (mid := fun _ => True); [apply waitAll_any; exact I|].
  intros _ _. reflexivity.
Qed.

End DockerFacts.

(* ===================================================================== *)
(** * The process execution engine: facts                                 *)
(* ===================================================================== *)

Module EngineFacts.

Import Engine EngineSpec.
Local Open Scope string_scope.
Local Open Scope Z_scope.
Local Open Scope list_scope.

(** ** The test cases under round-robin scheduling *)

Example TestCommand_round_robin :
  forallb (fun c => case_passes c
                      match Run test_os (runReq c) with
                      | inl s => inl (run 1 (round_robin 40) s)
                      | inr e => inr e
                      end) cases = true.
Proof. vm_compute. reflexivity. Qed.

(** A writer blocks on a full pipe until the pipe is drained: with pipes
    of one byte and no stdout sink, [echo hello] cannot write its second
    byte before the first has been taken out of the pipe. *)
Example full_pipe_blocks_writer :
  fire 1 TProc (run 1 [TProc] (init (echo ["hello"]) (runReq (nth_case 1)))) = None
  /\ blocked 1 (run 1 [TProc] (init (echo ["hello"]) (runReq (nth_case 1)))) = false
  /\ exists s, fire 1 TProc (run 1 [TProc; TDrain Stdout]
                                 (init (echo ["hello"]) (runReq (nth_case 1)))) = Some s.
Proof. repeat split. eexists. reflexivity. Qed.

(** ** Tasks and steps *)

Lemma has_room_lt cap bs : has_room cap bs = true <-> (List.length bs < cap)%nat.
Proof. unfold has_room. apply Nat.ltb_lt. Qed.

Lemma fire_step cap t s s' : fire cap t s = Some s' -> step cap s s'.
Proof.
  destruct s as [pr sr cl ip sn op ep os es rs].
  unfold fire; simpl. destruct rs as [c|]; [discriminate|].
  destruct t as [| |fd|]; simpl.
  - destruct cl; [discriminate|]. destruct sr as [|b sr].
    + intros [= <-]. constructor.
    + destruct (has_room cap ip) eqn:Hr; [|discriminate].
      intros [= <-]. constructor. now apply has_room_lt.
  - destruct pr as [[code|fd b next|next]|code]; [| | |discriminate].
    + intros [= <-]. constructor.
    + destruct fd; simpl.
      * destruct (has_room cap op) eqn:Hr; [|discriminate].
        intros [= <-]. constructor. now apply has_room_lt.
      * destruct (has_room cap ep) eqn:Hr; [|discriminate].
        intros [= <-]. constructor. now apply has_room_lt.
    + destruct ip as [|b ip].
      * destruct cl; [|discriminate]. intros [= <-]. constructor.
      * intros [= <-]. constructor.
  - destruct fd; simpl.
    + destruct op as [|b op]; [discriminate|]. intros [= <-]. constructor.
    + destruct ep as [|b ep]; [discriminate|]. intros [= <-]. constructor.
  - destruct pr as [p|code]; [discriminate|].
    destruct op; [|discriminate]. destruct ep; [|discriminate].
    intros [= <-]. constructor.
Qed.

Lemma step_fire cap s s' : step cap s s' -> exists t, fire cap t s = Some s'.
Proof.
  intros H. destruct H.
  - exists TIn. unfold fire; simpl. apply has_room_lt in H. now rewrite H.
  - exists TIn. reflexivity.
  - exists TProc. reflexivity.
  - exists TProc. unfold fire; simpl. apply has_room_lt in H. now rewrite H.
  - exists TProc. unfold fire; simpl. apply has_room_lt in H. now rewrite H.
  - exists TProc. reflexivity.
  - exists TProc. reflexivity.
  - exists (TDrain Stdout). reflexivity.
  - exists (TDrain Stderr). reflexivity.
  - exists TWait. reflexivity.
Qed.

Lemma step_result_None cap s s' : step cap s s' -> result s = None.
Proof. intros H; destruct H; reflexivity. Qed.

(** ** The behaviour of a process, constructor by constructor *)

Lemma stdout_of_Write fd b next i :
  stdout_of (Write fd b next) i
  = match fd with Stdout => b :: stdout_of next i | Stderr => stdout_of next i end.
Proof.
  unfold stdout_of. simpl. destruct (behaviour next i) as [[o e] c]. now destruct fd.
Qed.

Lemma stderr_of_Write fd b next i :
  stderr_of (Write fd b next) i
  = match fd with Stdout => stderr_of next i | Stderr => b :: stderr_of next i end.
Proof.
  unfold stderr_of. simpl. destruct (behaviour next i) as [[o e] c]. now destruct fd.
Qed.

Lemma exit_code_of_Write fd b next i :
  exit_code_of (Write fd b next) i = exit_code_of next i.
Proof.
  unfold exit_code_of. simpl. destruct (behaviour next i) as [[o e] c]. now destruct fd.
Qed.

Lemma behaviour_write_all fd bs next i :
  behaviour (write_all fd bs next) i
  = let '(o, e, c) := behaviour next i in
    match fd with Stdout => (bs ++ o, e, c) | Stderr => (o, bs ++ e, c) end.
Proof.
  induction bs as [|b bs IH]; simpl.
  - destruct (behaviour next i) as [[o e] c]. now destruct fd.
  - rewrite IH. destruct (behaviour next i) as [[o e] c]. now destruct fd.
Qed.

Create Rewrite HintDb behaviour.
#[local] Hint Rewrite stdout_of_Write stderr_of_Write exit_code_of_Write : behaviour.

(** ** Every step uses up weight *)

Lemma step_weight cap s s' :
  (stdin_closed s = true -> src s = []) ->
  step cap s s' -> (weight s' < weight s)%nat.
Proof.
  intros Hcl H. destruct H; unfold weight; simpl in *;
    rewrite ?length_app; simpl; try lia.
  - rewrite <- app_assoc. simpl. lia.
  - rewrite (Hcl eq_refl). simpl. lia.
Qed.

(** ** The invariant *)

Lemma init_Inv p req : Inv p req (init p req).
Proof.
  unfold Inv, init, input_of, rest_out, rest_err, final_code, sink_faithful,
    stdin_faithful. simpl.
  split.
  { exists [], 0%nat. simpl. repeat split.
    - destruct (Stdin req); [discriminate | reflexivity].
    - intros H. inversion H. }
  split; [reflexivity|].
  split; [destruct (StdoutWired req); [exists []; auto | reflexivity]|].
  split; [destruct (StderrWired req); [exists []; auto | reflexivity]|].
  intros code [=].
Qed.

Lemma repeat_snoc {A} (x : A) n : repeat x n ++ [x] = repeat x (S n).
Proof. induction n as [|n IH]; simpl; [reflexivity | now rewrite IH]. Qed.

Lemma stdin_faithful_step cap input s s' :
  stdin_faithful input s -> step cap s s' -> stdin_faithful input s'.
Proof.
  intros (pre & eofs & Hseen & Hin & Hcl & Heof) H.
  unfold stdin_faithful.
  destruct H; simpl in *;
    try (exists pre, eofs; repeat split; auto; fail).
  - exists pre, eofs. repeat split; auto; [|discriminate].
    rewrite <- Hin, <- app_assoc. reflexivity.
  - destruct eofs as [|eofs].
    + exists (pre ++ [b]), 0%nat. simpl in *. repeat split; auto.
      * rewrite Hseen, map_app, !app_nil_r. reflexivity.
      * rewrite <- Hin, <- app_assoc. reflexivity.
      * intros H; inversion H.
    + exfalso. assert (Hp : pre = input) by (apply Heof; lia).
      rewrite Hp in Hin. rewrite <- (app_nil_r input) in Hin at 2.
      apply app_inv_head in Hin. discriminate.
  - exists pre, (S eofs). repeat split; auto.
    + rewrite Hseen, <- app_assoc, repeat_snoc. reflexivity.
    + intros _. rewrite (Hcl eq_refl) in Hin. simpl in Hin.
      now rewrite app_nil_r in Hin.
Qed.

Lemma sink_faithful_drain wired got b inflight rest whole :
  sink_faithful wired got (b :: inflight) rest whole ->
  sink_faithful wired (option_map (fun g => g ++ [b]) got) inflight rest whole.
Proof.
  unfold sink_faithful. destruct wired.
  - intros (g & -> & H). exists (g ++ [b]). split; [reflexivity|].
    rewrite <- H, <- app_assoc. reflexivity.
  - intros ->. reflexivity.
Qed.

Lemma sink_faithful_write wired got b inflight rest whole :
  sink_faithful wired got inflight (b :: rest) whole ->
  sink_faithful wired got (inflight ++ [b]) rest whole.
Proof.
  unfold sink_faithful. destruct wired; [|auto].
  intros (g & -> & H). exists g. split; [reflexivity|].
  rewrite <- H, <- app_assoc. reflexivity.
Qed.

Lemma Inv_step cap p req s s' : Inv p req s -> step cap s s' -> Inv p req s'.
Proof.
  intros (Hin & Hcode & Hout & Herr & Hres) H.
  assert (Hcl : stdin_closed s = true -> src s = []).
  { destruct Hin as (pre & eofs & _ & _ & Hcl & _). exact Hcl. }
  split; [eapply stdin_faithful_step; eauto|].
  unfold rest_out, rest_err, final_code in *.
  destruct H; simpl in *; autorewrite with behaviour in *;
    rewrite <- ?app_assoc in *; simpl in *;
    repeat apply conj;
    try solve [ auto using sink_faithful_drain, sink_faithful_write
              | intros c [=]
              | intros c [= <-]; auto
              | rewrite (Hcl eq_refl) in *; assumption ].
Qed.

Lemma Inv_closed p req s : Inv p req s -> stdin_closed s = true -> src s = [].
Proof. intros ((pre & eofs & _ & _ & Hcl & _) & _). exact Hcl. Qed.

Lemma Inv_fire cap t p req s s' : Inv p req s -> fire cap t s = Some s' -> Inv p req s'.
Proof. intros HI Hf. eapply Inv_step; [exact HI | eapply fire_step; exact Hf]. Qed.

Lemma fire_weight cap t p req s s' :
  Inv p req s -> fire cap t s = Some s' -> (weight s' < weight s)%nat.
Proof.
  intros HI Hf. eapply step_weight; [eapply Inv_closed; exact HI | eapply fire_step; exact Hf].
Qed.

(** ** Schedules *)

Lemma run_app cap s1 s2 s : run cap (s1 ++ s2) s = run cap s2 (run cap s1 s).
Proof.
  revert s. induction s1 as [|t s1 IH]; intros s; simpl; [reflexivity|].
  destruct (fire cap t s); apply IH.
Qed.

Lemma run_Inv cap p req sched : forall s, Inv p req s -> Inv p req (run cap sched s).
Proof.
  induction sched as [|t sched IH]; intros s HI; simpl; [exact HI|].
  destruct (fire cap t s) as [s'|] eqn:Hf; apply IH; [eapply Inv_fire; eauto | exact HI].
Qed.

Lemma run_weight cap p req sched :
  forall s, Inv p req s -> (weight (run cap sched s) <= weight s)%nat.
Proof.
  induction sched as [|t sched IH]; intros s HI; simpl; [lia|].
  destruct (fire cap t s) as [s'|] eqn:Hf; [|apply IH; exact HI].
  assert (HI' : Inv p req s') by (eapply Inv_fire; eauto).
  assert (weight s' < weight s)%nat by (eapply fire_weight; eauto).
  pose proof (IH s' HI'). lia.
Qed.

(** A schedule made of effective picks only is no longer than the weight
    of the state it starts from. *)
Lemma all_fire_bound cap p req sched :
  forall s, Inv p req s -> all_fire cap sched s = true ->
            (List.length sched + weight (run cap sched s) <= weight s)%nat.
Proof.
  induction sched as [|t sched IH]; intros s HI; simpl; [lia|].
  destruct (fire cap t s) as [s'|] eqn:Hf; [|discriminate].
  intros Hall. assert (HI' : Inv p req s') by (eapply Inv_fire; eauto).
  assert (weight s' < weight s)%nat by (eapply fire_weight; eauto).
  pose proof (IH s' HI' Hall). lia.
Qed.

Lemma run_final cap sched s code : result s = Some code -> run cap sched s = s.
Proof.
  intros Hr. induction sched as [|t sched IH]; simpl; [reflexivity|].
  unfold fire. rewrite Hr. exact IH.
Qed.

(** ** No deadlock: while the wait has not yielded, some task can step *)

Lemma progress cap s :
  (1 <= cap)%nat -> result s = None -> exists t s', In t tasks /\ fire cap t s = Some s'.
Proof.
  intros Hcap Hr. destruct s as [pr sr cl ip sn op ep os es rs]. simpl in Hr. subst rs.
  unfold tasks.
  destruct op as [|b op].
  2:{ exists (TDrain Stdout). eexists. split; [simpl; tauto | reflexivity]. }
  destruct ep as [|b ep].
  2:{ exists (TDrain Stderr). eexists. split; [simpl; tauto | reflexivity]. }
  assert (Hroom : has_room cap [] = true) by (apply has_room_lt; simpl; lia).
  destruct pr as [[code|fd b next|next]|code].
  - exists TProc. eexists. split; [simpl; tauto | reflexivity].
  - exists TProc. destruct fd; eexists; (split; [simpl; tauto|]);
      unfold fire; simpl; rewrite Hroom; reflexivity.
  - destruct ip as [|b ip].
    + destruct cl.
      * exists TProc. eexists. split; [simpl; tauto | reflexivity].
      * exists TIn. destruct sr as [|b sr]; eexists; (split; [simpl; tauto|]).
        -- reflexivity.
        -- unfold fire; simpl. rewrite Hroom. reflexivity.
    + exists TProc. eexists. split; [simpl; tauto | reflexivity].
  - exists TWait. eexists. split; [simpl; tauto | reflexivity].
Qed.

Lemma progress_blocked cap s :
  (1 <= cap)%nat -> result s = None -> blocked cap s = false.
Proof.
  intros Hcap Hr. destruct (@progress cap s Hcap Hr) as (t & s' & Ht & Hf).
  unfold blocked. apply not_true_is_false. intros Hb.
  rewrite forallb_forall in Hb. specialize (Hb t Ht). now rewrite Hf in Hb.
Qed.

(** ** Round-robin scheduling completes *)

Lemma round_uses_weight cap p req (l : list Task) :
  forall s t s', Inv p req s -> In t l -> fire cap t s = Some s' ->
                 (weight (run cap l s) < weight s)%nat.
Proof.
  induction l as [|t0 l IH]; intros s t s' HI Ht Hf; [contradiction|].
  simpl. destruct (fire cap t0 s) as [s0|] eqn:Hf0.
  - assert (HI0 : Inv p req s0) by (eapply Inv_fire; eauto).
    assert (weight s0 < weight s)%nat by (eapply fire_weight; eauto).
    pose proof (@run_weight cap p req l s0 HI0). lia.
  - destruct Ht as [->|Ht]; [congruence|]. eapply IH; eauto.
Qed.

Lemma weight_pos s : result s = None -> (1 <= weight s)%nat.
Proof. intros Hr. unfold weight. rewrite Hr. lia. Qed.

Lemma round_robin_completes cap p req n :
  (1 <= cap)%nat ->
  forall s, Inv p req s -> (weight s <= n)%nat ->
            exists code, result (run cap (round_robin n) s) = Some code.
Proof.
  intros Hcap. induction n as [|n IH]; intros s HI Hw.
  - destruct (result s) as [code|] eqn:Hr; [exists code; exact Hr|].
    pose proof (@weight_pos s Hr). lia.
  - destruct (result s) as [code|] eqn:Hr.
    + exists code. now rewrite (@run_final cap (round_robin (S n)) s code Hr).
    + change (round_robin (S n)) with (tasks ++ round_robin n). rewrite run_app.
      destruct (@progress cap s Hcap Hr) as (t & s' & Ht & Hf).
      pose proof (@round_uses_weight cap p req tasks s t s' HI Ht Hf).
      apply IH; [apply run_Inv; exact HI | lia].
Qed.

(** ** What a finished run has delivered *)

Lemma sink_faithful_done got whole :
  sink_faithful true got [] [] whole -> got = Some whole.
Proof. intros (g & -> & H). simpl in H. now rewrite app_nil_r in H; subst. Qed.

Lemma sink_faithful_prefix got inflight rest whole :
  sink_faithful true got inflight rest whole ->
  exists g tail, got = Some g /\ g ++ tail = whole.
Proof. intros (g & -> & H). exists g, (inflight ++ rest). auto. Qed.

Lemma Inv_result p req s code :
  Inv p req s -> result s = Some code ->
  code = exit_code_of p (input_of req)
  /\ (StdoutWired req = true -> outsink s = Some (stdout_of p (input_of req)))
  /\ (StderrWired req = true -> errsink s = Some (stderr_of p (input_of req)))
  /\ (StdoutWired req = false -> outsink s = None)
  /\ (StderrWired req = false -> errsink s = None).
Proof.
  intros (_ & Hcode & Hout & Herr & Hres) Hr.
  destruct (Hres code Hr) as (Hp & Ho & He).
  unfold final_code, rest_out, rest_err in *. rewrite Hp, Ho in Hout. rewrite Hp, He in Herr.
  rewrite Hp in Hcode.
  split; [exact Hcode|].
  repeat split; intros Hw; rewrite Hw in *;
    try (apply sink_faithful_done; assumption); assumption.
Qed.

Lemma Run_init os req p : Run os req = inl (init p req) -> os (Command req) (Args req) = Some p.
Proof.
  unfold Run. destruct (os (Command req) (Args req)) as [q|]; [|discriminate].
  intros H. unfold init in H. congruence.
Qed.

(** The run of an accepted request: it cannot get stuck, it cannot go on
    for ever, every schedule that completes it yields the process's exit
    code, and round-robin scheduling completes it. *)
Lemma run_completes cap p req :
  (1 <= cap)%nat ->
  (forall sched, result (run cap sched (init p req)) = None ->
                 blocked cap (run cap sched (init p req)) = false)
  /\ (forall sched, all_fire cap sched (init p req) = true ->
                    (List.length sched <= weight (init p req))%nat)
  /\ (forall sched code, result (run cap sched (init p req)) = Some code ->
                         code = exit_code_of p (input_of req))
  /\ result (run cap (round_robin (weight (init p req))) (init p req))
     = Some (exit_code_of p (input_of req)).
Proof.
  intros Hcap. pose proof (init_Inv p req) as HI.
  split; [intros sched Hr; now apply progress_blocked|].
  split; [intros sched Hall;
          pose proof (@all_fire_bound cap p req sched (init p req) HI Hall); lia|].
  assert (Hcode : forall sched code, result (run cap sched (init p req)) = Some code ->
                                     code = exit_code_of p (input_of req)).
  { intros sched code Hr.
    apply (@Inv_result p req _ code (@run_Inv cap p req sched _ HI) Hr). }
  split; [exact Hcode|].
  destruct (@round_robin_completes cap p req (weight (init p req)) Hcap
              (init p req) HI (le_n _)) as [code Hr].
  rewrite Hr. f_equal. eapply Hcode, Hr.
Qed.

(** ** The cases of TestCommand, under every schedule *)

Lemma bytes_eqb_eq a b : bytes_eqb a b = true <-> a = b.
Proof.
  unfold bytes_eqb. destruct (list_eq_dec Byte.byte_eq_dec a b); split; auto; discriminate.
Qed.

Lemma case_passes_result cap (c : Case) (p : Proc) sched code :
  meets_case c p = true ->
  result (run cap sched (init p (runReq c))) = Some code ->
  code = 0
  /\ case_passes c (inl (run cap sched (init p (runReq c)))) = true.
Proof.
  intros Hm Hr.
  pose proof (@run_Inv cap p (runReq c) sched _ (init_Inv p (runReq c))) as HI.
  destruct (@Inv_result _ _ _ _ HI Hr) as (Hcode & Hout & Herr & _).
  unfold meets_case in Hm. apply andb_prop in Hm. destruct Hm as [Hm He].
  apply andb_prop in Hm. destruct Hm as [Hc Ho].
  apply Z.eqb_eq in Hc. rewrite <- Hcode in Hc.
  split; [exact Hc|].
  unfold case_passes. rewrite Hr, Hc. simpl.
  apply andb_true_intro. split.
  - destruct (expStdout c =? "")%string eqn:E; [reflexivity|].
    rewrite Hout by (simpl; now rewrite E). exact Ho.
  - destruct (expStderr c =? "")%string eqn:E; [reflexivity|].
    rewrite Herr by (simpl; now rewrite E). exact He.
Qed.

(** Every case of the table passes: its process starts, every schedule
    that completes the run satisfies the assertions, and round-robin
    scheduling completes it. *)
Lemma TestCommand_passes cap (c : Case) :
  (1 <= cap)%nat -> In c cases ->
  exists p,
    Run test_os (runReq c) = inl (init p (runReq c))
    /\ meets_case c p = true
    /\ (forall sched code,
           result (run cap sched (init p (runReq c))) = Some code ->
           code = 0 /\ case_passes c (inl (run cap sched (init p (runReq c)))) = true)
    /\ case_passes c (inl (run cap (round_robin (weight (init p (runReq c))))
                               (init p (runReq c)))) = true.
Proof.
  intros Hcap Hin.
  assert (Hp : exists p, Run test_os (runReq c) = inl (init p (runReq c))
                         /\ meets_case c p = true).
  { simpl in Hin.
    destruct Hin as [<-|[<-|[<-|[<-|[<-|[]]]]]];
      [exists (echo ["hello"]) | exists (echo ["hello"]) | exists printf_foo_bar
       | exists printf_foo_bar | exists read_line_echo];
      (split; [reflexivity | vm_compute; reflexivity]). }
  destruct Hp as (p & Hrun & Hm). exists p.
  split; [exact Hrun|]. split; [exact Hm|].
  split; [intros sched code; now apply case_passes_result|].
  destruct (@run_completes cap p (runReq c) Hcap) as (_ & _ & _ & Hrr).
  eapply case_passes_result; [exact Hm | exact Hrr].
Qed.

(** ** Absent sinks *)

(** C5: a request with one or both sinks absent, once its process has
    started: the run never gets stuck, takes a bounded number of steps,
    yields the process's exit code under every schedule that completes it,
    and completes under round-robin scheduling; an absent sink receives
    nothing, and a pipe that holds bytes can always be drained, its sink
    wired or not.  So the cases that run [echo hello] with no stdout sink
    and [printf foo; printf bar 1>&2] with no sink at all end with exit
    code 0. *)
Theorem Run_completes_with_absent_sinks
        (cap : nat) (os : OS) (req : RunRequest) (p : Proc)
        (Hcap : (1 <= cap)%nat)
        (Hstart : Run os req = inl (init p req))
        (Habsent : StdoutWired req = false \/ StderrWired req = false) :
  (forall sched, result (run cap sched (init p req)) = None ->
                 blocked cap (run cap sched (init p req)) = false)
  /\ (forall sched, all_fire cap sched (init p req) = true ->
                    (List.length sched <= weight (init p req))%nat)
  /\ (forall sched code, result (run cap sched (init p req)) = Some code ->
                         code = exit_code_of p (input_of req))
  /\ result (run cap (round_robin (weight (init p req))) (init p req))
     = Some (exit_code_of p (input_of req))
  /\ (forall sched,
        (StdoutWired req = false -> outsink (run cap sched (init p req)) = None)
        /\ (StderrWired req = false -> errsink (run cap sched (init p req)) = None))
  /\ (forall sched fd b rest,
        result (run cap sched (init p req)) = None ->
        pipe fd (run cap sched (init p req)) = b :: rest ->
        exists s', fire cap (TDrain fd) (run cap sched (init p req)) = Some s'
                   /\ pipe fd s' = rest)
  /\ (forall i, i = 1%nat \/ i = 3%nat ->
        exists q,
          Run test_os (runReq (nth_case i)) = inl (init q (runReq (nth_case i)))
          /\ (forall sched code,
                 result (run cap sched (init q (runReq (nth_case i)))) = Some code ->
                 code = 0)
          /\ result (run cap (round_robin (weight (init q (runReq (nth_case i)))))
                         (init q (runReq (nth_case i)))) = Some 0).
Proof.
  destruct (@run_completes cap p req Hcap) as (Hprog & Hbound & Hcode & Hrr).
  split; [exact Hprog|]. split; [exact Hbound|]. split; [exact Hcode|]. split; [exact Hrr|].
  split; [|split].
  - intros sched.
    pose proof (@run_Inv cap p req sched _ (init_Inv p req)) as (_ & _ & Ho & He & _).
    split; intros Hw; rewrite Hw in *; assumption.
  - intros sched fd b rest Hr Hp.
    destruct (run cap sched (init p req)) as [pr sr cl ip sn op ep so se rs].
    simpl in Hr. subst rs. unfold fire. simpl.
    destruct fd; simpl in *; rewrite Hp; eexists; split; reflexivity.
  - intros i Hi.
    assert (Hc : In (nth_case i) cases) by (destruct Hi as [-> | ->]; simpl; tauto).
    destruct (@TestCommand_passes cap (nth_case i) Hcap Hc) as (q & Hrun & Hm & Hall & _).
    exists q. split; [exact Hrun|]. split; [intros sched code Hr; apply (Hall sched code Hr)|].
    destruct (@run_completes cap q (runReq (nth_case i)) Hcap) as (_ & _ & _ & Hq).
    rewrite Hq. f_equal. apply (Hall _ _ Hq).
Qed.

Lemma Run_completes_with_absent_sinks_witness :
  result (run 1 (round_robin (weight (init (echo ["hello"]) (runReq (nth_case 1)))))
              (init (echo ["hello"]) (runReq (nth_case 1))))
  = Some (exit_code_of (echo ["hello"]) (input_of (runReq (nth_case 1)))).
Proof.
  refine (proj1 (proj2 (proj2 (proj2
    (@Run_completes_with_absent_sinks 1 test_os (runReq (nth_case 1)) (echo ["hello"])
       _ _ _))))).
  - apply le_n.
  - reflexivity.
  - left. reflexivity.
Defined.

(** ** The input stream *)

Example cat_copies_input :
  behaviour (cat 8) (bytes "foo") = (bytes "foo", [], 0).
Proof. reflexivity. Qed.

(** C6: a request with an input stream, once its process has started.
    Under every schedule the process's reads return the bytes of the
    stream, in order and unchanged, and end-of-file only after the last of
    them; when the stream is exhausted the relay closes the process's
    standard input, and a read on the closed, empty pipe returns
    end-of-file; a completed run yields the exit code and the output of the
    process run on exactly that input, and round-robin scheduling completes
    it.  So [read line; echo $line bar] with input "foo" ends with exit code
    0 and "foo bar" and a newline on the stdout sink. *)
Theorem stdin_reaches_process
        (cap : nat) (os : OS) (req : RunRequest) (p : Proc) (input : list byte)
        (Hcap : (1 <= cap)%nat)
        (Hstart : Run os req = inl (init p req))
        (Hinput : Stdin req = Some input) :
  (forall sched, stdin_faithful input (run cap sched (init p req)))
  /\ (forall sched,
        result (run cap sched (init p req)) = None ->
        stdin_closed (run cap sched (init p req)) = false ->
        src (run cap sched (init p req)) = [] ->
        exists s', fire cap TIn (run cap sched (init p req)) = Some s'
                   /\ stdin_closed s' = true
                   /\ inpipe s' = inpipe (run cap sched (init p req)))
  /\ (forall sched next,
        result (run cap sched (init p req)) = None ->
        proc (run cap sched (init p req)) = inl (Read next) ->
        inpipe (run cap sched (init p req)) = [] ->
        stdin_closed (run cap sched (init p req)) = true ->
        exists s', fire cap TProc (run cap sched (init p req)) = Some s'
                   /\ proc s' = inl (next None))
  /\ (forall sched code,
        result (run cap sched (init p req)) = Some code ->
        code = exit_code_of p input
        /\ (StdoutWired req = true ->
            outsink (run cap sched (init p req)) = Some (stdout_of p input))
        /\ (StderrWired req = true ->
            errsink (run cap sched (init p req)) = Some (stderr_of p input)))
  /\ result (run cap (round_robin (weight (init p req))) (init p req))
     = Some (exit_code_of p input)
  /\ (Run test_os (runReq (nth_case 4)) = inl (init read_line_echo (runReq (nth_case 4)))
      /\ Stdin (runReq (nth_case 4)) = Some (bytes "foo")
      /\ (forall sched code,
             result (run cap sched (init read_line_echo (runReq (nth_case 4)))) = Some code ->
             code = 0
             /\ outsink (run cap sched (init read_line_echo (runReq (nth_case 4))))
                = Some (bytes ("foo bar" ++ nl)))
      /\ result (run cap (round_robin (weight (init read_line_echo (runReq (nth_case 4)))))
                     (init read_line_echo (runReq (nth_case 4)))) = Some 0).
Proof.
  assert (Hi : input_of req = input) by (unfold input_of; now rewrite Hinput).
  destruct (@run_completes cap p req Hcap) as (_ & _ & _ & Hrr). rewrite Hi in Hrr.
  split; [|split; [|split; [|split; [|split; [exact Hrr|]]]]].
  - intros sched.
    pose proof (@run_Inv cap p req sched _ (init_Inv p req)) as (Hf & _).
    now rewrite Hi in Hf.
  - intros sched Hr Hcl Hsrc.
    destruct (run cap sched (init p req)) as [pr sr cl ip sn op ep so se rs].
    simpl in *. subst. unfold fire. simpl. eexists. repeat split.
  - intros sched next Hr Hp Hip Hcl.
    destruct (run cap sched (init p req)) as [pr sr cl ip sn op ep so se rs].
    simpl in *. subst. unfold fire. simpl. eexists. repeat split.
  - intros sched code Hr.
    pose proof (@run_Inv cap p req sched _ (init_Inv p req)) as HI.
    destruct (@Inv_result _ _ _ _ HI Hr) as (Hc & Ho & He & _).
    rewrite Hi in *. auto.
  - assert (Hm : meets_case (nth_case 4) read_line_echo = true) by (vm_compute; reflexivity).
    split; [reflexivity|]. split; [reflexivity|]. split.
    + intros sched code Hr.
      destruct (@case_passes_result cap _ _ sched code Hm Hr) as [Hc _].
      split; [exact Hc|].
      pose proof (@run_Inv cap read_line_echo (runReq (nth_case 4)) sched _
                           (init_Inv _ _)) as HI.
      destruct (@Inv_result _ _ _ _ HI Hr) as (_ & Ho & _).
      rewrite (Ho eq_refl). reflexivity.
    + destruct (@run_completes cap read_line_echo (runReq (nth_case 4)) Hcap)
        as (_ & _ & _ & Hq).
      rewrite Hq. f_equal.
Qed.

Lemma stdin_reaches_process_witness :
  result (run 1 (round_robin (weight (init (cat 8) (runReq (nth_case 4)))))
              (init (cat 8) (runReq (nth_case 4))))
  = Some (exit_code_of (cat 8) (bytes "foo")).
Proof.
  refine (proj1 (proj2 (proj2 (proj2 (proj2
    (@stdin_reaches_process 1 (fun _ _ => Some (cat 8)) (runReq (nth_case 4)) (cat 8)
       (bytes "foo") _ _ _)))))).
  - apply le_n.
  - reflexivity.
  - reflexivity.
Defined.

(** ** Both sinks *)

(** C7: a request with both sinks wired, once its process has started.
    Under every schedule each sink holds, at every moment, a prefix of the
    bytes the process writes to that sink's own stream, and when the run
    has completed it holds exactly those bytes; round-robin scheduling
    completes the run.  So a process that writes "foo" to standard output
    and "bar" to standard error, in either order, leaves "foo" in the
    stdout sink and "bar" in the stderr sink. *)
Theorem sinks_receive_own_stream
        (cap : nat) (os : OS) (req : RunRequest) (p : Proc)
        (Hcap : (1 <= cap)%nat)
        (Hstart : Run os req = inl (init p req))
        (Hout : StdoutWired req = true) (Herr : StderrWired req = true) :
  (forall sched, exists o o' e e',
      outsink (run cap sched (init p req)) = Some o
      /\ errsink (run cap sched (init p req)) = Some e
      /\ o ++ o' = stdout_of p (input_of req)
      /\ e ++ e' = stderr_of p (input_of req))
  /\ (forall sched code,
        result (run cap sched (init p req)) = Some code ->
        outsink (run cap sched (init p req)) = Some (stdout_of p (input_of req))
        /\ errsink (run cap sched (init p req)) = Some (stderr_of p (input_of req)))
  /\ (exists code,
        result (run cap (round_robin (weight (init p req))) (init p req)) = Some code)
  /\ (forall q, q = printf_foo_bar \/ q = err_then_out ->
        forall sched code,
          result (run cap sched (init q (runReq (nth_case 2)))) = Some code ->
          code = 0
          /\ outsink (run cap sched (init q (runReq (nth_case 2)))) = Some (bytes "foo")
          /\ errsink (run cap sched (init q (runReq (nth_case 2)))) = Some (bytes "bar")).
Proof.
  split; [|split; [|split]].
  - intros sched.
    pose proof (@run_Inv cap p req sched _ (init_Inv p req)) as (_ & _ & Ho & He & _).
    rewrite Hout in Ho. rewrite Herr in He.
    destruct (sink_faithful_prefix Ho) as (o & o' & Ho1 & Ho2).
    destruct (sink_faithful_prefix He) as (e & e' & He1 & He2).
    exists o, o', e, e'. auto.
  - intros sched code Hr.
    pose proof (@run_Inv cap p req sched _ (init_Inv p req)) as HI.
    destruct (@Inv_result _ _ _ _ HI Hr) as (_ & Ho & He & _). auto.
  - destruct (@run_completes cap p req Hcap) as (_ & _ & _ & Hrr). eexists. exact Hrr.
  - intros q Hq sched code Hr.
    pose proof (@run_Inv cap q (runReq (nth_case 2)) sched _ (init_Inv _ _)) as HI.
    destruct (@Inv_result _ _ _ _ HI Hr) as (Hc & Ho & He & _).
    rewrite (Ho eq_refl), (He eq_refl), Hc.
    destruct Hq as [-> | ->]; repeat split.
Qed.

Lemma sinks_receive_own_stream_witness :
  outsink (run 1 (round_robin 16) (init printf_foo_bar (runReq (nth_case 2))))
  = Some (bytes "foo")
  /\ errsink (run 1 (round_robin 16) (init printf_foo_bar (runReq (nth_case 2))))
     = Some (bytes "bar").
Proof.
  refine (proj1 (proj2
    (@sinks_receive_own_stream 1 test_os (runReq (nth_case 2)) printf_foo_bar _ _ _ _))
    (round_robin 16) 0 _).
  - apply le_n.
  - reflexivity.
  - reflexivity.
  - reflexivity.
  - vm_compute. reflexivity.
Defined.

End EngineFacts.

(* ===================================================================== *)
(** * The wrapper: error behaviour and composition                        *)
(* ===================================================================== *)

Module BasicMore.

Import Basic BasicSpec BasicCover.
Local Open Scope string_scope.
Local Open Scope Z_scope.
Local Open Scope list_scope.

(** The promoted [StartProc] reaches the implementation under the
    wrappers, and panics when there is none. *)
Lemma Node_StartProc_underlying (n : Node) (req : StartProcRequest) :
  Node_StartProc n req
  = match underlying n with
    | Some impl => Returns (StartProc impl req)
    | None => Panics "nil pointer dereference"
    end.
Proof. induction n as [|impl|inner IH log]; simpl; auto. Qed.

(** X1: whatever the node does, [BasicNode.Run] returns either 0 with a nil
    error or -1 with a non-nil error: no other code comes back, and the
    error is nil exactly when the code is 0. *)
Theorem Run_result_shape (n : BasicNode) (req : StartProcRequest) (code : Z) (err : go_error)
        (Hrun : Run n req = Returns (code, err)) :
  (code = 0 /\ err = None) \/ (code = -1 /\ err <> None).
Proof.
  unfold Run in Hrun.
  destruct (Node_StartProc (BN_Node n) req) as [[[p|] [e|]]|r]; try discriminate.
  - injection Hrun as <- <-. right. split; [reflexivity | discriminate].
  - destruct (Wait p) as [c we]. destruct (c =? 0) eqn:Hc; simpl in Hrun.
    + injection Hrun as <- <-. apply Z.eqb_eq in Hc. left. auto.
    + injection Hrun as <- <-. right. split; [reflexivity | discriminate].
  - injection Hrun as <- <-. right. split; [reflexivity | discriminate].
Qed.

Lemma Run_result_shape_witness :
  (-1 = 0 /\ Some connection_reset = None)
  \/ (-1 = -1 /\ Some connection_reset <> None).
Proof.
  exact (@Run_result_shape (basic_node (unstartable_node connection_reset)) true_req
                           (-1) (Some connection_reset) eq_refl).
Defined.

(** X2: [BasicNode.Run] returns [(0, nil)] exactly when [StartProc]
    returns a process with a nil error and that process's wait yields exit
    code 0, whatever error the wait yields next to the code: an error of
    the wait that comes with code 0 does not reach the caller. *)
Theorem Run_success_iff (n : BasicNode) (req : StartProcRequest) :
  Run n req = Returns (0, None)
  <-> exists p we, Node_StartProc (BN_Node n) req = Returns (Some p, None)
                   /\ Wait p = (0, we).
Proof.
  unfold Run.
  destruct (Node_StartProc (BN_Node n) req) as [[[p|] [e|]]|r].
  - split; [discriminate | intros (q & we & [=] & _)].
  - destruct (Wait p) as [code we] eqn:Hw. destruct (code =? 0) eqn:Hc; simpl.
    + apply Z.eqb_eq in Hc. subst code.
      split; [intros _; exists p, we; auto | reflexivity].
    + split; [discriminate|]. intros (q & we' & [= <-] & Hq).
      rewrite Hw in Hq. injection Hq as -> _. discriminate.
  - split; [discriminate | intros (q & we & [=] & _)].
  - split; [discriminate | intros (q & we & [=] & _)].
  - split; [discriminate | intros (q & we & [=] & _)].
Qed.

(** X3: [BasicNode.Run] panics exactly when there is no implementation
    under the node's wrappers (a nil [Node]) or when [StartProc] returns a
    nil process next to a nil error; in every other case it returns. *)
Theorem Run_panics_iff (n : BasicNode) (req : StartProcRequest) :
  (exists reason, Run n req = Panics reason)
  <-> (underlying (BN_Node n) = None
       \/ exists impl, underlying (BN_Node n) = Some impl
                       /\ StartProc impl req = (None, None)).
Proof.
  unfold Run. rewrite Node_StartProc_underlying.
  destruct (underlying (BN_Node n)) as [impl|].
  - destruct (StartProc impl req) as [[p|] [e|]] eqn:Hs.
    + split; [intros [r H]; discriminate|].
      intros [H | (i & [= <-] & H)]; [discriminate | congruence].
    + destruct (Wait p) as [c we]. destruct (negb (c =? 0)).
      * split; [intros [r H]; discriminate|].
        intros [H | (i & [= <-] & H)]; [discriminate | congruence].
      * split; [intros [r H]; discriminate|].
        intros [H | (i & [= <-] & H)]; [discriminate | congruence].
    + split; [intros [r H]; discriminate|].
      intros [H | (i & [= <-] & H)]; [discriminate | congruence].
    + split; [|intros _; eexists; reflexivity].
      intros _. right. exists impl. auto.
  - split; [intros _; left; reflexivity | intros _; eexists; reflexivity].
Qed.

(** ** Wrapping a wrapper *)

Lemma Run_asNode (b : BasicNode) (log : Logger) (req : StartProcRequest) :
  Run {| BN_Node := asNode b; BN_Log := log |} req = Run b req.
Proof. reflexivity. Qed.

Lemma RootDir_asNode (b : BasicNode) (log : Logger) :
  RootDir {| BN_Node := asNode b; BN_Log := log |} = RootDir b.
Proof. reflexivity. Qed.



(** ** NewNodes *)

(** X17: [BasicCluster.NewNodes] returns the error of the wrapped
    cluster's [NewNodes] unchanged and, next to it, one wrapper per node
    that the wrapped cluster returned, in the same order, each around its
    node and with the cluster's logger's child "basic_node". *)
Theorem NewNodes_wraps_each (c : BasicCluster) (n : Z) :
  snd (NewNodes c n) = snd (Cluster_NewNodes (BC_Cluster c) n)
  /\ map BN_Node (fst (NewNodes c n)) = fst (Cluster_NewNodes (BC_Cluster c) n)
  /\ List.length (fst (NewNodes c n))
     = List.length (fst (Cluster_NewNodes (BC_Cluster c) n))
  /\ Forall (fun b => BN_Log b = Named (BC_Log c) "basic_node") (fst (NewNodes c n)).
Proof.
  rewrite BasicFacts.NewNodes_eq. cbn [fst snd].
  generalize (fst (Cluster_NewNodes (BC_Cluster c) n)) as nodes. intros nodes.
  repeat split.
  - induction nodes as [|nd nodes IH]; simpl; [reflexivity | now rewrite IH].
  - apply length_map.
  - induction nodes as [|nd nodes IH]; simpl; constructor; auto.
Qed.

(** ** New and its options *)
(** ** New and its options *)

Lemma fold_options_cluster (opts : list Option) :
  logger_options opts ->
  forall bc, BC_Cluster (fold_left (fun b o => o b) opts bc) = BC_Cluster bc.
Proof.
  induction 1 as [|o opts [l ->] _ IH]; intros bc; simpl; [reflexivity|].
  rewrite IH. reflexivity.
Qed.

(** X5: [New] fails exactly when the default logger cannot be built, with
    that error wrapped and no cluster.  Otherwise the options run in order
    after the default logger is installed: with no option the logger is the
    default one's child "basic_cluster", a [WithLogger] given last decides
    the logger, and [WithLogger] options leave the wrapped cluster alone. *)
Theorem New_options (logger : Logger) (c : Cluster) :
  (forall e opts,
      New (logger, Some e) c opts
      = (None, Some (Errorf "constructing default logger: %w" [ArgErr (Some e)])))
  /\ (forall opts, exists bc, New (logger, None) c opts = (Some bc, None))
  /\ New (logger, None) c []
     = (Some {| BC_Cluster := c; BC_Log := Named logger "basic_cluster" |}, None)
  /\ (forall opts l, exists bc,
        New (logger, None) c (opts ++ [WithLogger l]) = (Some bc, None)
        /\ BC_Log bc = Named l "basic_cluster")
  /\ (forall opts bc,
        logger_options opts ->
        New (logger, None) c opts = (Some bc, None) -> BC_Cluster bc = c).
Proof.
  split; [reflexivity|]. split; [intros opts; eexists; reflexivity|].
  split; [reflexivity|]. split.
  - intros opts l. eexists. split; [reflexivity|].
    rewrite fold_left_app. reflexivity.
  - intros opts bc Hopts [= <-]. now rewrite fold_options_cluster.
Qed.

End BasicMore.

(* ===================================================================== *)
(** * The Docker cluster: its runs                                        *)
(* ===================================================================== *)

Module DockerMore.

Import Docker DockerSpec DockerCover.
Local Open Scope string_scope.
Local Open Scope Z_scope.
Local Open Scope list_scope.
Local Open Scope prog_scope.

(** ** The logic of runs *)

Lemma wp_mono {R} (P : Prop) (p : Prog R) :
  forall (post post' : list call -> R -> Prop),
    (forall tr r, post tr r -> post' tr r) -> wp P p post -> wp P p post'.
Proof.
  induction p as [a|msg|X e k IH]; intros post post' Himp; simpl.
  - apply Himp.
  - exact (fun H => H).
  - intros H x. eapply IH; [|apply H]. intros tr r. apply Himp.
Qed.

Lemma wp_bind {A B} (P : Prop) (p : Prog A) (f : A -> Prog B) :
  forall (post : list call -> B -> Prop),
    wp P p (fun t1 a => wp P (f a) (fun t2 b => post (t1 ++ t2) b)) ->
    wp P (bind p f) post.
Proof.
  induction p as [a|msg|X e k IH]; intros post; simpl.
  - exact (fun H => H).
  - exact (fun H => H).
  - intros H x. apply IH. exact (H x).
Qed.

Lemma wp_exec {R W} (P : Prop) (p : Prog R) (h : handler W) :
  forall (post : list call -> R -> Prop),
    wp P p post ->
    forall w, match exec h p w with
              | (Returns r, _, tr) => post tr r
              | (Panics _, _, _) => P
              end.
Proof.
  induction p as [a|msg|X e k IH]; intros post Hwp w; simpl in *; auto.
  destruct (h X e w) as [x w1].
  specialize (IH x _ (Hwp x) w1).
  destruct (exec h (k x) w1) as [[[r|msg] w2] tr]; exact IH.
Qed.

(** A program that cannot panic returns in every world. *)
Lemma wp_returns {R W} (p : Prog R) (h : handler W) (post : list call -> R -> Prop) :
  wp False p post ->
  forall w, exists r, result_of (exec h p w) = Returns r
                      /\ post (trace_of (exec h p w)) r.
Proof.
  intros Hwp w. pose proof (@wp_exec R W False p h post Hwp w) as H.
  destruct (exec h p w) as [[[r|msg] w2] tr]; [|contradiction].
  exists r. split; [reflexivity | exact H].
Qed.

Lemma wp_result {R W} (P : Prop) (p : Prog R) (h : handler W)
      (post : list call -> R -> Prop) (w : W) (r : R) :
  wp P p post ->
  result_of (exec h p w) = Returns r -> post (trace_of (exec h p w)) r.
Proof.
  intros Hwp Hr. pose proof (@wp_exec R W P p h post Hwp w) as H.
  destruct (exec h p w) as [[[r'|msg] w2] tr]; [|discriminate].
  unfold result_of, trace_of in *. simpl in *. now injection Hr as <-.
Qed.

(** ** ensureImagePulled *)

Lemma ensureImagePulled_runs (c : Cluster) :
  wp False (ensureImagePulled c) (fun tr r => pull_run c tr (fst r) (snd r)).
Proof.
  unfold ensureImagePulled. destruct (imagePulled c) eqn:Hp; simpl.
  - now constructor.
  - intros [out|[out|] e]; simpl.
    + intros [e|]; simpl; intros []; now constructor.
    + intros []. now constructor.
    + now constructor.
Qed.

(** ** The provisioning loop *)

Lemma failed_node_set_Nodes bin c ns id tr e :
  failed_node bin (set_Nodes c ns) id tr e -> failed_node bin c id tr e.
Proof.
  intros H. destruct H.
  - apply fail_port.
  - apply (fail_create bin c id port cid e).
  - apply (fail_start bin c id port cid e).
  - apply (fail_client bin c id port cid ac e).
Qed.

Lemma zseq_snoc start count :
  zseq start (S count) = zseq start count ++ [start + Z.of_nat count].
Proof.
  revert start. induction count as [|k IH]; intros start.
  - simpl. now rewrite Z.add_0_r.
  - change (zseq start (S (S k))) with (start :: zseq (start + 1) (S k)).
    rewrite IH. simpl. do 3 f_equal. lia.
Qed.

(** An iteration that fails before any node was made. *)
Ltac fail_now :=
  exists []; split; [solve [auto]|]; split; [split; [reflexivity | constructor]|];
  right; do 2 eexists; repeat split;
  [ simpl; lia
  | change (Z.of_nat (List.length (@nil node))) with 0; rewrite Z.add_0_r;
    first [apply fail_port | apply fail_create | apply fail_start | apply fail_client] ].

Lemma provision_runs (bin : string) (start : Z) (todo : nat) :
  forall (i : Z) (c : Cluster) (acc : list node),
    wp False (provision bin start todo i c acc)
       (fun tr r =>
          exists made,
            fst (fst r) = set_Nodes c (Nodes c ++ made)
            /\ numbered_from c (start + i) made
            /\ ((snd r = None /\ snd (fst r) = acc ++ made
                 /\ List.length made = todo
                 /\ tr = flat_map (node_calls bin c) made)
                \/ (exists e tfail,
                       snd r = Some e /\ snd (fst r) = []
                       /\ (List.length made < todo)%nat
                       /\ failed_node bin c (start + i + Z.of_nat (List.length made)) tfail e
                       /\ tr = flat_map (node_calls bin c) made ++ tfail))).
Proof.
  assert (Hnil : forall c : Cluster, c = set_Nodes c (Nodes c ++ []))
    by (intros [a b d e f g]; unfold set_Nodes; simpl; now rewrite app_nil_r).
  induction todo as [|todo IH]; intros i c acc; simpl.
  { exists []. split; [apply Hnil|]. split; [split; [reflexivity | constructor]|].
    left. now rewrite app_nil_r. }
  intros [port [e|]]; simpl.
  { fail_now. }
  intros [cid [e|]]; simpl.
  { fail_now. }
  intros [e|]; simpl.
  { fail_now. }
  intros [ac [e|]]; simpl.
  { fail_now. }
  eapply wp_mono; [|apply IH].
  intros tr [[c' nodes] err] (made & Hc & [Hids Hnodes] & Hcases). simpl in *.
  set (nd := {| ID := start + i;
                ContainerName := ("clustertest-" ++ ContainerPrefix c ++ "-"
                                    ++ Itoa (start + i))%string;
                ContainerID := cid; HostPort := port; Env := [];
                agentClient := ac; dockerClient_ := DockerClient_ c |}) in *.
  exists (nd :: made).
  split; [rewrite Hc; unfold set_Nodes; simpl; now rewrite <- app_assoc|].
  split.
  { split.
    - simpl. f_equal. rewrite Hids. f_equal. lia.
    - constructor; [repeat split | exact Hnodes]. }
  destruct Hcases as [(He & Hn & Hl & Ht) | (e & tfail & He & Hn & Hl & Hf & Ht)].
  - left. repeat split; auto.
    + rewrite Hn, <- app_assoc. reflexivity.
    + simpl. now rewrite Hl.
    + rewrite Ht. reflexivity.
  - right. exists e, tfail. repeat split; auto.
    + simpl. lia.
    + apply failed_node_set_Nodes in Hf.
      replace (start + i + Z.of_nat (List.length (nd :: made)))
        with (start + (i + 1) + Z.of_nat (List.length made))
        by (simpl List.length; lia).
      exact Hf.
    + rewrite Ht. reflexivity.
Qed.

(** ** NewNodes *)

Lemma waitAll_runs (nodes : list node) :
  wp False (waitAll nodes)
     (fun tr _ => exists answers,
          List.length answers = List.length nodes /\ tr = wait_calls nodes answers).
Proof.
  induction nodes as [|nd rest IH]; simpl.
  - exists []. split; reflexivity.
  - intros x. eapply wp_mono; [|apply IH].
    intros tr _ (answers & Hl & ->). exists (x :: answers).
    split; [simpl; now rewrite Hl | reflexivity].
Qed.

Lemma failed_node_set_imagePulled bin c b id tr e :
  failed_node bin (set_imagePulled c b) id tr e -> failed_node bin c id tr e.
Proof.
  intros H. destruct H.
  - apply fail_port.
  - apply (fail_create bin c id port cid e).
  - apply (fail_start bin c id port cid e).
  - apply (fail_client bin c id port cid ac e).
Qed.

(** Every run of [NewNodes] that returns is one of the five runs of
    [NewNodes_run], and [NewNodes] returns in every world. *)
Lemma NewNodes_runs (c : Cluster) (n : Z) :
  wp False (NewNodes c n)
     (fun tr r => NewNodes_run c n tr (fst r) (fst (snd r)) (snd (snd r))).
Proof.
  unfold NewNodes. simpl.
  intros [wd [e|]]; simpl; [constructor|].
  intros bin. destruct (bin =? "")%string eqn:Hbin; simpl.
  { apply String.eqb_eq in Hbin. subst bin. constructor. }
  apply String.eqb_neq in Hbin.
  apply wp_bind. eapply wp_mono; [|apply ensureImagePulled_runs].
  intros tpull [c1 [e|]] Hpull; simpl in *.
  { rewrite app_nil_r. now apply run_pull_fails. }
  apply wp_bind. eapply wp_mono; [|apply provision_runs].
  intros tprov [[c2 nodes] err] (made & Hc2 & Hnum & Hcases). simpl in *.
  rewrite Z.add_0_r in *.
  assert (Hmade : numbered_from c (startID c) made
                  /\ Nodes c1 = Nodes c
                  /\ flat_map (node_calls bin c1) made = flat_map (node_calls bin c) made
                  /\ forall id t e, failed_node bin c1 id t e -> failed_node bin c id t e).
  { inversion Hpull; subst.
    - split; [exact Hnum|]. split; [reflexivity|]. split; [reflexivity|]. auto.
    - split; [exact Hnum|]. split; [reflexivity|]. split; [reflexivity|].
      intros id t e. apply failed_node_set_imagePulled. }
  destruct Hmade as (Hnum' & Hsame & Hcalls & Hfail).
  rewrite Hsame in *. subst c2.
  destruct Hcases as [(-> & -> & Hl & ->) | (e & tfail & -> & -> & Hl & Hf & ->)]; simpl.
  - apply wp_bind. eapply wp_mono; [|apply waitAll_runs].
    intros twait _ (answers & Hla & ->). simpl.
    rewrite app_nil_r, Hcalls. now apply run_ok.
  - rewrite app_nil_r, Hcalls. apply run_provision_fails; auto.
Qed.

(** ** What the calls of a trace pull, read and close *)

Lemma closes_app t1 t2 : closes (t1 ++ t2) = closes t1 ++ closes t2.
Proof. apply flat_map_app. Qed.

Lemma bodies_app t1 t2 : bodies (t1 ++ t2) = bodies t1 ++ bodies t2.
Proof. apply flat_map_app. Qed.

Lemma pulls_completed_app t1 t2 :
  pulls_completed (t1 ++ t2) = (pulls_completed t1 + pulls_completed t2)%nat.
Proof. unfold pulls_completed. now rewrite filter_app, length_app. Qed.

Lemma pull_attempts_app t1 t2 :
  pull_attempts (t1 ++ t2) = (pull_attempts t1 + pull_attempts t2)%nat.
Proof. unfold pull_attempts. now rewrite filter_app, length_app. Qed.

Lemma quiet_trace (tr : list call) :
  Forall quiet tr ->
  closes tr = [] /\ bodies tr = []
  /\ pulls_completed tr = 0%nat /\ pull_attempts tr = 0%nat.
Proof.
  unfold closes, bodies, pulls_completed, pull_attempts.
  induction 1 as [|cl tr (Hc & Hb & Hp & Ha) _ (IHc & IHb & IHp & IHa)]; simpl; auto.
  rewrite Hc, Hb, Hp, Ha. simpl. auto.
Qed.

Lemma quiet_node_calls bin c (made : list node) :
  Forall quiet (flat_map (node_calls bin c) made).
Proof.
  induction made as [|nd made IH]; simpl; [constructor|].
  repeat (constructor; [repeat split|]). exact IH.
Qed.

Lemma quiet_failed_node bin c id tr e : failed_node bin c id tr e -> Forall quiet tr.
Proof. intros H. destruct H; repeat (constructor; [repeat split|]); constructor. Qed.

Lemma quiet_wait_calls nodes answers : Forall quiet (wait_calls nodes answers).
Proof.
  unfold wait_calls. induction (combine nodes answers) as [|na l IH]; simpl; constructor; auto.
  repeat split.
Qed.

Lemma quiet_app t1 t2 : Forall quiet t1 -> Forall quiet t2 -> Forall quiet (t1 ++ t2).
Proof. intros H1 H2. apply Forall_app. auto. Qed.

(** ** What a run keeps *)

Lemma zseq_length start count : List.length (zseq start count) = count.
Proof. revert start. induction count; intros; simpl; auto. Qed.

Lemma zseq_app start a b :
  zseq start (a + b) = zseq start a ++ zseq (start + Z.of_nat a) b.
Proof.
  revert start. induction a as [|a IH]; intros start.
  - simpl. now rewrite Z.add_0_r.
  - change (zseq start (S a + b)) with (start :: zseq (start + 1) (a + b)).
    rewrite IH. simpl zseq. rewrite <- app_comm_cons. do 3 f_equal. lia.
Qed.

Lemma ids_ok_app (c : Cluster) (made : list node) :
  ids_ok c -> map ID made = zseq (startID c) (List.length made) ->
  map ID (Nodes c ++ made) = zseq 0 (List.length (Nodes c ++ made)).
Proof.
  unfold ids_ok, startID. intros Hc Hm.
  rewrite map_app, length_app, zseq_app, Hc, Hm. reflexivity.
Qed.

Lemma keeps_refl (c : Cluster) : keeps [] c c.
Proof.
  unfold keeps, same_config. repeat split; auto.
  exists []. now rewrite app_nil_r.
Qed.

Lemma keeps_imagePulled tr c c' : keeps tr c c' -> imagePulled c = true -> imagePulled c' = true.
Proof.
  intros (_ & Hacc & _) Hp. rewrite Hp in Hacc.
  destruct (imagePulled c'); [reflexivity | simpl in Hacc; lia].
Qed.

Lemma keeps_trans t1 t2 c c1 c2 : keeps t1 c c1 -> keeps t2 c1 c2 -> keeps (t1 ++ t2) c c2.
Proof.
  intros H1 H2. pose proof (keeps_imagePulled H1) as Hmono.
  destruct H1 as (Hc1 & Ha1 & (S1 & S2 & S3 & S4) & Hp1 & (m1 & Hn1) & Hi1).
  destruct H2 as (Hc2 & Ha2 & (T1 & T2 & T3 & T4) & Hp2 & (m2 & Hn2) & Hi2).
  unfold keeps, same_config. repeat split; try congruence.
  - rewrite closes_app, bodies_app. congruence.
  - rewrite pulls_completed_app. lia.
  - intros Hp. rewrite pull_attempts_app, Hp1, Hp2; auto.
  - exists (m1 ++ m2). rewrite Hn2, Hn1, app_assoc. reflexivity.
  - auto.
Qed.

Lemma pull_run_keeps c tr c1 err : pull_run c tr c1 err -> keeps tr c c1.
Proof.
  intros H. destruct H; unfold keeps, same_config; simpl;
    repeat split; auto; try congruence;
    try (exists []; now rewrite app_nil_r);
    try (rewrite H; reflexivity).
Qed.

Lemma keeps_quiet tr c : Forall quiet tr -> keeps tr c c.
Proof.
  intros Hq. destruct (quiet_trace Hq) as (Hc & Hb & Hp & Ha).
  unfold keeps, same_config. repeat split; auto; try congruence.
  - rewrite Hp. lia.
  - exists []. now rewrite app_nil_r.
Qed.

Lemma keeps_set_Nodes tr c c1 made :
  keeps tr c c1 -> Nodes c1 = Nodes c ->
  map ID made = zseq (startID c) (List.length made) ->
  keeps tr c (set_Nodes c1 (Nodes c ++ made)).
Proof.
  intros (Hc & Ha & (S1 & S2 & S3 & S4) & Hp & _ & _) Hn Hm.
  unfold keeps, same_config. simpl. repeat split; auto.
  - exists made. reflexivity.
  - intros Hi. unfold ids_ok. simpl. now apply ids_ok_app.
Qed.

Lemma NewNodes_run_keeps c n tr c' nodes err :
  NewNodes_run c n tr c' nodes err -> keeps tr c c'.
Proof.
  intros H. destruct H.
  - apply keeps_quiet. repeat (constructor; [repeat split|]). constructor.
  - apply keeps_quiet. repeat (constructor; [repeat split|]). constructor.
  - apply (@keeps_trans [Call Getwd (wd, None); Call (FindUp "nodeagent" wd) bin] tpull c c c1).
    + apply keeps_quiet. repeat (constructor; [repeat split|]). constructor.
    + eapply pull_run_keeps; eauto.
  - destruct H1 as [Hids _].
    apply (@keeps_trans [Call Getwd (wd, None); Call (FindUp "nodeagent" wd) bin]
                        (tpull ++ flat_map (node_calls bin c) made ++ tfail) c c).
    { apply keeps_quiet. repeat (constructor; [repeat split|]). constructor. }
    apply keeps_set_Nodes; [|inversion H0; reflexivity|exact Hids].
    replace tpull with (tpull ++ []) at 1 by apply app_nil_r.
    rewrite <- app_assoc. simpl.
    apply (@keeps_trans tpull _ c c1 c1); [eapply pull_run_keeps; eauto|].
    apply keeps_quiet. apply quiet_app; [apply quiet_node_calls|].
    eapply quiet_failed_node; eauto.
  - destruct H1 as [Hids _].
    apply (@keeps_trans [Call Getwd (wd, None); Call (FindUp "nodeagent" wd) bin]
                        (tpull ++ flat_map (node_calls bin c) made
                               ++ wait_calls made answers) c c).
    { apply keeps_quiet. repeat (constructor; [repeat split|]). constructor. }
    apply keeps_set_Nodes; [|inversion H0; reflexivity|exact Hids].
    apply (@keeps_trans tpull _ c c1 c1); [eapply pull_run_keeps; eauto|].
    apply keeps_quiet. apply quiet_app; [apply quiet_node_calls | apply quiet_wait_calls].
Qed.

Lemma NewNodesSeq_keeps (ns : list Z) :
  forall c, wp False (NewNodesSeq c ns) (fun tr c' => keeps tr c c').
Proof.
  induction ns as [|n ns IH]; intros c; cbn [NewNodesSeq].
  - simpl. apply keeps_refl.
  - apply wp_bind. eapply wp_mono; [|apply NewNodes_runs].
    intros t1 [c1 [nodes err]] Hrun. simpl in Hrun. simpl fst.
    eapply wp_mono; [|apply IH]. intros t2 c2 H2. simpl.
    eapply keeps_trans; [eapply NewNodes_run_keeps; exact Hrun | exact H2].
Qed.

(** ** Across a succession of NewNodes calls *)

(** X6: in every world and over every succession of [NewNodes] calls,
    every body that [ImagePull] hands back is closed, once and in the order
    received, and nothing else is closed. *)
Theorem every_pull_body_closed (ns : list Z) (c : Cluster) W (h : handler W) (w : W) :
  closes (trace_of (exec h (NewNodesSeq c ns) w))
  = bodies (trace_of (exec h (NewNodesSeq c ns) w)).
Proof.
  destruct (@wp_returns _ W (NewNodesSeq c ns) h _ (NewNodesSeq_keeps ns c) w)
    as (c' & _ & Hk).
  apply Hk.
Qed.

(** X7: in every world, a succession of [NewNodes] calls returns, and the
    image is marked pulled afterwards exactly if it was before or one pull
    was read to the end: at most one pull is ever read to the end, and a
    cluster whose image is marked pulled makes no [ImagePull] call and
    stays marked. *)
Theorem image_pulled_once (ns : list Z) (c : Cluster) W (h : handler W) (w : W) :
  exists c',
    result_of (exec h (NewNodesSeq c ns) w) = Returns c'
    /\ Nat.b2n (imagePulled c')
       = (Nat.b2n (imagePulled c)
          + pulls_completed (trace_of (exec h (NewNodesSeq c ns) w)))%nat
    /\ (pulls_completed (trace_of (exec h (NewNodesSeq c ns) w)) <= 1)%nat
    /\ (imagePulled c = true ->
        pull_attempts (trace_of (exec h (NewNodesSeq c ns) w)) = 0%nat
        /\ imagePulled c' = true).
Proof.
  destruct (@wp_returns _ W (NewNodesSeq c ns) h _ (NewNodesSeq_keeps ns c) w)
    as (c' & Hr & Hk).
  exists c'. split; [exact Hr|].
  pose proof (keeps_imagePulled Hk) as Hmono.
  destruct Hk as (_ & Hacc & _ & Hatt & _).
  split; [exact Hacc|]. split; [|auto].
  destruct (imagePulled c'), (imagePulled c); simpl in Hacc; lia.
Qed.

Lemma zseq_In start count x : In x (zseq start count) -> start <= x < start + Z.of_nat count.
Proof.
  revert start. induction count as [|k IH]; intros start; simpl; [tauto|].
  intros [<- | H]; [lia|]. apply IH in H. lia.
Qed.

Lemma NoDup_zseq start count : NoDup (zseq start count).
Proof.
  revert start. induction count as [|k IH]; intros start; simpl; constructor; auto.
  intros H. apply zseq_In in H. lia.
Qed.

(** X8: on a cluster whose node numbers are the positions of its nodes, a
    succession of [NewNodes] calls, failed or not, leaves a cluster that
    still holds the nodes it held, in place, and whose node numbers are
    still the positions: no two registered nodes share a number. *)
Theorem node_ids_are_positions (ns : list Z) (c : Cluster) W (h : handler W) (w : W)
        (Hids : ids_ok c) :
  exists c',
    result_of (exec h (NewNodesSeq c ns) w) = Returns c'
    /\ (exists made, Nodes c' = Nodes c ++ made)
    /\ map ID (Nodes c') = zseq 0 (List.length (Nodes c'))
    /\ NoDup (map ID (Nodes c')).
Proof.
  destruct (@wp_returns _ W (NewNodesSeq c ns) h _ (NewNodesSeq_keeps ns c) w)
    as (c' & Hr & Hk).
  exists c'. split; [exact Hr|].
  destruct Hk as (_ & _ & _ & _ & Hmade & Hi).
  split; [exact Hmade|]. specialize (Hi Hids). split; [exact Hi|].
  rewrite Hi. apply NoDup_zseq.
Qed.

Lemma node_ids_are_positions_witness :
  exists c',
    result_of (exec (scripted_world (only 11)) (NewNodesSeq test_cluster [2; 3]) 0%nat)
    = Returns c'
    /\ (exists made, Nodes c' = Nodes test_cluster ++ made)
    /\ map ID (Nodes c') = zseq 0 (List.length (Nodes c'))
    /\ NoDup (map ID (Nodes c')).
Proof.
  exact (@node_ids_are_positions [2; 3] test_cluster nat (scripted_world (only 11)) 0%nat
                                 eq_refl).
Defined.

(** ** One NewNodes call *)

Lemma NewNodes_result (c : Cluster) (n : Z) W (h : handler W) (w : W) c' nodes err :
  result_of (exec h (NewNodes c n) w) = Returns (c', (nodes, err)) ->
  NewNodes_run c n (trace_of (exec h (NewNodes c n) w)) c' nodes err.
Proof.
  intros Hr. exact (@wp_result _ W False (NewNodes c n) h _ w _ (NewNodes_runs c n) Hr).
Qed.

Lemma pull_run_pulled c tr c1 : pull_run c tr c1 None -> imagePulled c1 = true.
Proof. intros H. inversion H; subst; auto. Qed.

Lemma pull_run_same_config c tr c1 err : pull_run c tr c1 err -> same_config c c1.
Proof. intros H. apply pull_run_keeps in H. apply H. Qed.

Lemma NewNodes_run_success c n tr c' nodes :
  NewNodes_run c n tr c' nodes None ->
  Nodes c' = Nodes c ++ nodes
  /\ List.length nodes = Z.to_nat n
  /\ numbered_from c (startID c) nodes
  /\ imagePulled c' = true
  /\ same_config c c'
  /\ exists wd bin tpull c1 answers,
      bin <> "" /\ pull_run c tpull c1 None
      /\ List.length answers = List.length nodes
      /\ tr = Call Getwd (wd, None) :: Call (FindUp "nodeagent" wd) bin
                :: tpull ++ flat_map (node_calls bin c) nodes ++ wait_calls nodes answers.
Proof.
  intros H. inversion H; subst.
  match goal with Hp : pull_run _ _ _ None |- _ =>
    pose proof (pull_run_pulled Hp) as Hpulled;
    pose proof (pull_run_same_config Hp) as Hsame
  end.
  split; [reflexivity|]. split; [assumption|]. split; [assumption|].
  split; [exact Hpulled|]. split; [exact Hsame|].
  exists wd, bin, tpull, c1, answers. auto.
Qed.

(** X9: a [NewNodes(ctx, n)] that returns a nil error has appended the
    nodes it returns, and only them, to the cluster's nodes; they are as
    many as asked for (none for [n <= 0]), numbered consecutively from the
    number of nodes the cluster had, and each is named
    "clustertest-<prefix>-<number>" and holds the cluster's Docker client;
    the image is marked pulled and the rest of the cluster is unchanged. *)
Theorem NewNodes_success (c : Cluster) (n : Z) W (h : handler W) (w : W)
        (c' : Cluster) (nodes : list node)
        (Hres : result_of (exec h (NewNodes c n) w) = Returns (c', (nodes, None))) :
  Nodes c' = Nodes c ++ nodes
  /\ List.length nodes = Z.to_nat n
  /\ map ID nodes = zseq (Z.of_nat (List.length (Nodes c))) (List.length nodes)
  /\ Forall (fun nd => ContainerName nd = container_name c (ID nd)
                       /\ dockerClient_ nd = DockerClient_ c /\ Env nd = []) nodes
  /\ imagePulled c' = true
  /\ same_config c c'.
Proof.
  apply NewNodes_result, NewNodes_run_success in Hres.
  destruct Hres as (Hn & Hl & [Hids Hnodes] & Hp & Hs & _).
  auto 10.
Qed.

Lemma NewNodes_success_witness :
  Nodes (cluster_after two_nodes) = Nodes test_cluster ++ nodes_after two_nodes
  /\ List.length (nodes_after two_nodes) = Z.to_nat 2
  /\ map ID (nodes_after two_nodes)
     = zseq (Z.of_nat (List.length (Nodes test_cluster)))
            (List.length (nodes_after two_nodes))
  /\ Forall (fun nd => ContainerName nd = container_name test_cluster (ID nd)
                       /\ dockerClient_ nd = DockerClient_ test_cluster
                       /\ Env nd = []) (nodes_after two_nodes)
  /\ imagePulled (cluster_after two_nodes) = true
  /\ same_config test_cluster (cluster_after two_nodes).
Proof.
  apply (@NewNodes_success test_cluster 2 nat (scripted_world never) 0%nat
                           (cluster_after two_nodes) (nodes_after two_nodes)).
  vm_compute. reflexivity.
Defined.

(** ** A NewNodes call that fails *)

Lemma pull_run_error c tr c1 e : pull_run c tr c1 (Some e) -> c1 = c.
Proof. intros H. inversion H; subst; reflexivity. Qed.

Lemma pull_run_no_provisioning c tr c1 err :
  pull_run c tr c1 err -> forallb (fun cl => negb (is_provisioning cl)) tr = true.
Proof. intros H. destruct H; reflexivity. Qed.

Lemma In_node_calls bin c (made : list node) (nd : node) :
  In nd made ->
  exists t1 t2, flat_map (node_calls bin c) made = t1 ++ node_calls bin c nd ++ t2.
Proof.
  intros Hin. apply in_split in Hin. destruct Hin as (l1 & l2 & ->).
  exists (flat_map (node_calls bin c) l1), (flat_map (node_calls bin c) l2).
  rewrite flat_map_app. reflexivity.
Qed.

(** The nodes a run has registered, each with its four calls in the
    trace, one after the other. *)
Lemma NewNodes_run_made c n tr c' nodes err :
  NewNodes_run c n tr c' nodes err ->
  exists bin made,
    Nodes c' = Nodes c ++ made
    /\ numbered_from c (startID c) made
    /\ (List.length made <= Z.to_nat n)%nat
    /\ (err <> None -> nodes = [] /\ (List.length made <= Nat.pred (Z.to_nat n))%nat)
    /\ forall nd, In nd made ->
                  exists t1 t2, tr = t1 ++ node_calls bin c nd ++ t2.
Proof.
  assert (Hempty : forall c1 : Cluster, Nodes c1 = Nodes c ->
            exists (bin : string) (made : list node),
              Nodes c1 = Nodes c ++ made /\ numbered_from c (startID c) made
              /\ (List.length made <= Z.to_nat n)%nat
              /\ (List.length made <= Nat.pred (Z.to_nat n))%nat
              /\ forall nd, In nd made -> exists t1 t2, tr = t1 ++ node_calls bin c nd ++ t2).
  { intros c1 Hn. exists "", []. rewrite app_nil_r.
    split; [exact Hn|]. split; [split; [reflexivity | constructor]|].
    split; [simpl; lia|]. split; [simpl; lia|]. intros nd []. }
  intros H. destruct H.
  - destruct (Hempty c eq_refl) as (b & m & A & B & C & D & E). exists b, m. auto 10.
  - destruct (Hempty c eq_refl) as (b & m & A & B & C & D & E). exists b, m. auto 10.
  - apply pull_run_error in H0. subst c1.
    destruct (Hempty c eq_refl) as (b & m & A & B & C & D & E). exists b, m. auto 10.
  - exists bin, made. split; [reflexivity|]. split; [assumption|]. split; [lia|].
    split; [intros _; split; [reflexivity | lia]|].
    intros nd Hin. destruct (In_node_calls bin c made nd Hin) as (t1 & t2 & Ht).
    exists (Call Getwd (wd, None) :: Call (FindUp "nodeagent" wd) bin :: tpull ++ t1),
           (t2 ++ tfail).
    rewrite Ht. simpl. rewrite <- !app_assoc. reflexivity.
  - exists bin, made. split; [reflexivity|]. split; [assumption|]. split; [lia|].
    split; [intros Hne; now contradiction Hne|].
    intros nd Hin. destruct (In_node_calls bin c made nd Hin) as (t1 & t2 & Ht).
    exists (Call Getwd (wd, None) :: Call (FindUp "nodeagent" wd) bin :: tpull ++ t1),
           (t2 ++ wait_calls made answers).
    rewrite Ht. simpl. rewrite <- !app_assoc. reflexivity.
Qed.

(** X10: a [NewNodes(ctx, n)] that returns an error returns no node, yet
    the nodes it had provisioned before the failure (fewer than [n]) stay
    appended to the cluster's nodes, each with its container started; no
    agent has been waited for. *)
Theorem NewNodes_failure (c : Cluster) (n : Z) W (h : handler W) (w : W)
        (c' : Cluster) (nodes : list node) (e : error)
        (Hres : result_of (exec h (NewNodes c n) w) = Returns (c', (nodes, Some e))) :
  nodes = []
  /\ called_WaitForServer (trace_of (exec h (NewNodes c n) w)) = false
  /\ exists made,
      Nodes c' = Nodes c ++ made
      /\ (List.length made <= Nat.pred (Z.to_nat n))%nat
      /\ map ID made = zseq (Z.of_nat (List.length (Nodes c))) (List.length made)
      /\ forall nd, In nd made ->
                    In (Call (ContainerStart (DockerClient_ c) (ContainerID nd)) None)
                       (trace_of (exec h (NewNodes c n) w)).
Proof.
  pose proof (@NewNodes_result c n W h w c' nodes (Some e) Hres) as Hrun.
  apply NewNodes_run_made in Hrun.
  destruct Hrun as (bin & made & Hn & [Hids _] & _ & Herr & Hcalls).
  destruct Herr as [Hnil Hlen]; [discriminate|].
  split; [exact Hnil|]. split.
  { destruct (called_WaitForServer (trace_of (exec h (NewNodes c n) w))) eqn:Hw;
      [|reflexivity].
    pose proof (@DockerFacts.NewNodes_nil_error_after_wait c n W h w Hw c' nodes (Some e) Hres).
    discriminate. }
  exists made. split; [exact Hn|]. split; [exact Hlen|]. split; [exact Hids|].
  intros nd Hin. destruct (Hcalls nd Hin) as (t1 & t2 & ->).
  apply in_or_app. right. simpl. auto.
Qed.

Lemma NewNodes_failure_witness :
  nodes_after second_start_fails = []
  /\ called_WaitForServer
       (trace_of (exec (scripted_world (only 11)) (NewNodes test_cluster 2) 0%nat)) = false
  /\ exists made,
      Nodes (cluster_after second_start_fails) = Nodes test_cluster ++ made
      /\ (List.length made <= Nat.pred (Z.to_nat 2))%nat
      /\ map ID made = zseq (Z.of_nat (List.length (Nodes test_cluster))) (List.length made)
      /\ forall nd, In nd made ->
                    In (Call (ContainerStart (DockerClient_ test_cluster) (ContainerID nd)) None)
                       (trace_of (exec (scripted_world (only 11))
                                       (NewNodes test_cluster 2) 0%nat)).
Proof.
  apply (@NewNodes_failure test_cluster 2 nat (scripted_world (only 11)) 0%nat
                           (cluster_after second_start_fails)
                           (nodes_after second_start_fails) start_refused).
  vm_compute. reflexivity.
Defined.

Lemma failed_node_not_early bin c id tr e : failed_node bin c id tr e -> ~ early_error e.
Proof.
  intros H [He | [(i & He) | (i & He)]]; destruct H; discriminate.
Qed.

Lemma NewNodes_run_early c n tr c' nodes e :
  NewNodes_run c n tr c' nodes (Some e) -> early_error e ->
  c' = c /\ nodes = [] /\ forallb (fun cl => negb (is_provisioning cl)) tr = true.
Proof.
  intros H He. inversion H; subst.
  - auto.
  - auto.
  - match goal with Hp : pull_run _ _ _ _ |- _ =>
      pose proof (pull_run_error Hp); pose proof (pull_run_no_provisioning Hp) end.
    subst. auto.
  - exfalso. eapply failed_node_not_early; eauto.
Qed.

(** X11: when [NewNodes] returns one of the errors it raises before its
    loop (the working directory cannot be read, the nodeagent binary is not
    found, the image cannot be pulled), the cluster is as it was, no node
    is returned, and no port was acquired, no container created or started
    and no agent client built. *)
Theorem NewNodes_early_error (c : Cluster) (n : Z) W (h : handler W) (w : W)
        (c' : Cluster) (nodes : list node) (e : error)
        (Hres : result_of (exec h (NewNodes c n) w) = Returns (c', (nodes, Some e)))
        (Hearly : early_error e) :
  c' = c /\ nodes = []
  /\ forallb (fun cl => negb (is_provisioning cl))
             (trace_of (exec h (NewNodes c n) w)) = true.
Proof.
  eapply NewNodes_run_early; [|exact Hearly].
  apply NewNodes_result. exact Hres.
Qed.

Lemma NewNodes_early_error_witness :
  test_cluster = test_cluster /\ @nil node = []
  /\ forallb (fun cl => negb (is_provisioning cl))
             (trace_of (exec (scripted_world (only 1)) (NewNodes test_cluster 2) 0%nat))
     = true.
Proof.
  apply (@NewNodes_early_error test_cluster 2 nat (scripted_world (only 1)) 0%nat
                               test_cluster [] (ErrNew "unable to find nodeagent bin")).
  - vm_compute. reflexivity.
  - left. reflexivity.
Defined.

(** ** The calls of a NewNodes call that succeeds *)

Lemma called_WaitForServer_app t1 t2 :
  called_WaitForServer (t1 ++ t2) = called_WaitForServer t1 || called_WaitForServer t2.
Proof. apply existsb_app. Qed.

Lemma pull_run_no_wait c tr c1 err : pull_run c tr c1 err -> called_WaitForServer tr = false.
Proof. intros H. destruct H; reflexivity. Qed.

Lemma node_calls_no_wait bin c (made : list node) :
  called_WaitForServer (flat_map (node_calls bin c) made) = false.
Proof. induction made as [|nd made IH]; simpl; auto. Qed.

(** X12: a [NewNodes] that returns a nil error has called
    [WaitForServer] once on the agent client of each node it returns, in
    the order of the nodes, as its last calls: every other call comes
    before the first wait. *)
Theorem NewNodes_waits_last (c : Cluster) (n : Z) W (h : handler W) (w : W)
        (c' : Cluster) (nodes : list node)
        (Hres : result_of (exec h (NewNodes c n) w) = Returns (c', (nodes, None))) :
  exists pre answers,
    trace_of (exec h (NewNodes c n) w) = pre ++ wait_calls nodes answers
    /\ List.length answers = List.length nodes
    /\ called_WaitForServer pre = false.
Proof.
  apply NewNodes_result, NewNodes_run_success in Hres.
  destruct Hres as (_ & _ & _ & _ & _ & wd & bin & tpull & c1 & answers & _ & Hp & Hl & ->).
  exists (Call Getwd (wd, None) :: Call (FindUp "nodeagent" wd) bin
            :: tpull ++ flat_map (node_calls bin c) nodes), answers.
  split; [simpl; now rewrite <- app_assoc|]. split; [exact Hl|].
  simpl. rewrite called_WaitForServer_app, (pull_run_no_wait Hp), node_calls_no_wait.
  reflexivity.
Qed.

Lemma NewNodes_waits_last_witness :
  exists pre answers,
    trace_of (exec (scripted_world never) (NewNodes test_cluster 2) 0%nat)
    = pre ++ wait_calls (nodes_after two_nodes) answers
    /\ List.length answers = List.length (nodes_after two_nodes)
    /\ called_WaitForServer pre = false.
Proof.
  apply (@NewNodes_waits_last test_cluster 2 nat (scripted_world never) 0%nat
                              (cluster_after two_nodes) (nodes_after two_nodes)).
  vm_compute. reflexivity.
Defined.



(** ** randString *)

Lemma get_in_string (s : string) :
  forall k ch, String.get k s = Some ch ->
               existsb (Ascii.eqb ch) (list_ascii_of_string s) = true.
Proof.
  induction s as [|a s IH]; intros k ch; simpl; [discriminate|].
  destruct k as [|k].
  - intros [= ->]. now rewrite Ascii.eqb_refl.
  - intros H. rewrite (IH k ch H). apply orb_true_r.
Qed.

Lemma get_chars (k : nat) : (k < 35)%nat -> exists ch, String.get k chars = Some ch.
Proof.
  intros Hk. do 35 (destruct k as [|k]; [eexists; reflexivity|]). lia.
Qed.

Lemma randString_runs (n : nat) :
  wp True (randString n)
     (fun tr s => String.length s = n
                  /\ forallb in_chars (list_ascii_of_string s) = true
                  /\ List.length tr = n
                  /\ forallb is_RandIntn tr = true).
Proof.
  induction n as [|n IH]; cbn [randString]; [simpl; auto|].
  unfold trigger. cbn [bind wp]. intros i.
  destruct (if (0 <=? i) && (i <? len chars) then String.get (Z.to_nat i) chars else None)
    as [ch|] eqn:Hget; [|exact I].
  assert (Hch : in_chars ch = true).
  { destruct ((0 <=? i) && (i <? len chars)); [|discriminate].
    unfold in_chars. eapply get_in_string; eauto. }
  apply wp_bind. eapply wp_mono; [|apply IH].
  intros tr rest (Hl & Hc & Ht & Hr). cbn [wp].
  rewrite app_nil_r. cbn [String.length list_ascii_of_string forallb List.length].
  rewrite Hl, Hc, Ht, Hr, Hch. cbn [is_RandIntn]. rewrite Z.eqb_refl. auto.
Qed.

Lemma randString_returns (n : nat) W (h : handler W) :
  Intn_in_range h -> forall w, exists s, result_of (exec h (randString n) w) = Returns s.
Proof.
  intros Hrange. induction n as [|n IH]; intros w; cbn [randString]; [eexists; reflexivity|].
  unfold trigger. cbn [bind exec].
  pose proof (Hrange (len chars) w eq_refl) as Hi.
  destruct (h Z (RandIntn (len chars)) w) as [i w1]. simpl fst in Hi.
  assert (Hc : (0 <=? i) && (i <? len chars) = true)
    by (apply andb_true_intro; split; [apply Z.leb_le | apply Z.ltb_lt]; lia).
  rewrite Hc.
  destruct (@get_chars (Z.to_nat i)) as [ch Hch];
    [change (len chars) with 35 in Hi; lia|].
  rewrite Hch, DockerFacts.exec_bind.
  destruct (IH w1) as [rest Hrest].
  destruct (exec h (randString n) w1) as [[o w2] tr]. unfold result_of in *. simpl in *.
  subst o. simpl. eexists. reflexivity.
Qed.

(** X14: when [rand.Intn] keeps its contract, [randString(n)] returns a
    string of [n] characters, each one of [chars] (so never the letter d,
    which [chars] lacks), after exactly [n] draws, each out of
    [len(chars)]. *)
Theorem randString_alphabet (n : nat) W (h : handler W) (w : W)
        (Hrand : Intn_in_range h) :
  exists s,
    result_of (exec h (randString n) w) = Returns s
    /\ String.length s = n
    /\ forallb in_chars (list_ascii_of_string s) = true
    /\ ~ In "d"%char (list_ascii_of_string s)
    /\ List.length (trace_of (exec h (randString n) w)) = n
    /\ forallb is_RandIntn (trace_of (exec h (randString n) w)) = true.
Proof.
  destruct (randString_returns n Hrand w) as [s Hs]. exists s.
  destruct (@wp_result _ W True (randString n) h _ w s (randString_runs n) Hs)
    as (Hl & Hc & Ht & Hr).
  repeat split; auto.
  intros Hd. rewrite forallb_forall in Hc. specialize (Hc _ Hd). discriminate.
Qed.

Lemma randString_alphabet_witness :
  exists s,
    result_of (exec (scripted_world never) (randString 6) 2%nat) = Returns s
    /\ String.length s = 6%nat
    /\ forallb in_chars (list_ascii_of_string s) = true
    /\ ~ In "d"%char (list_ascii_of_string s)
    /\ List.length (trace_of (exec (scripted_world never) (randString 6) 2%nat)) = 6%nat
    /\ forallb is_RandIntn (trace_of (exec (scripted_world never) (randString 6) 2%nat))
       = true.
Proof.
  apply (@randString_alphabet 6 nat (scripted_world never) 2%nat).
  intros n w Hn. simpl. apply Z.mod_pos_bound. exact Hn.
Defined.

(** ** NewCluster *)

Lemma NewCluster_runs (baseImage : string) (opts : list (Cluster -> Cluster)) :
  wp True (NewCluster baseImage opts)
     (fun tr r => NewCluster_run baseImage tr (fst r) (snd r)).
Proof.
  unfold NewCluster. cbn -[randString].
  intros [dcl [e|]]; cbn -[randString]; [constructor|].
  intros [cert [e|]]; cbn -[randString]; [constructor|].
  apply wp_bind. eapply wp_mono; [|apply randString_runs].
  intros tr prefix (Hl & Hc & Ht & Hr). cbn [wp fst snd].
  rewrite app_nil_r. now constructor.
Qed.

Lemma NewCluster_result (baseImage : string) opts W (h : handler W) (w : W) oc err :
  result_of (exec h (NewCluster baseImage opts) w) = Returns (oc, err) ->
  NewCluster_run baseImage (trace_of (exec h (NewCluster baseImage opts) w)) oc err.
Proof.
  intros Hr.
  exact (@wp_result _ W True (NewCluster baseImage opts) h _ w _
                    (NewCluster_runs baseImage opts) Hr).
Qed.

Lemma NewCluster_run_failure b tr oc e :
  NewCluster_run b tr oc (Some e) ->
  oc = None
  /\ ((exists dcl inner,
          tr = [Call NewClientWithOpts (dcl, Some inner)]
          /\ e = Errorf "building Docker client: %w" [ArgErr (Some inner)])
      \/ (exists dcl cert inner,
             tr = [Call NewClientWithOpts (dcl, None); Call GenerateCert (cert, Some inner)]
             /\ e = Errorf "generating TLS cert: %w" [ArgErr (Some inner)])).
Proof.
  intros H. inversion H; subst; (split; [reflexivity|]).
  - left. eauto.
  - right. eauto 6.
Qed.

(** X15: a [NewCluster] that returns an error returns no cluster, and the
    error wraps that of the one collaborator that failed: the Docker client,
    in which case no certificate was generated, or the certificate
    generator; in both cases no container prefix was drawn. *)
Theorem NewCluster_failure (baseImage : string) (opts : list (Cluster -> Cluster))
        W (h : handler W) (w : W) (oc : option Cluster) (e : error)
        (Hres : result_of (exec h (NewCluster baseImage opts) w) = Returns (oc, Some e)) :
  oc = None
  /\ ((exists dcl inner,
          trace_of (exec h (NewCluster baseImage opts) w)
          = [Call NewClientWithOpts (dcl, Some inner)]
          /\ e = Errorf "building Docker client: %w" [ArgErr (Some inner)])
      \/ (exists dcl cert inner,
             trace_of (exec h (NewCluster baseImage opts) w)
             = [Call NewClientWithOpts (dcl, None); Call GenerateCert (cert, Some inner)]
             /\ e = Errorf "generating TLS cert: %w" [ArgErr (Some inner)])).
Proof. apply NewCluster_run_failure with (b := baseImage), NewCluster_result, Hres. Qed.

Lemma NewCluster_failure_witness :
  @None Cluster = None
  /\ ((exists dcl inner,
          trace_of (exec (scripted_world (only 1)) (NewCluster "ubuntu" []) 0%nat)
          = [Call NewClientWithOpts (dcl, Some inner)]
          /\ Errorf "generating TLS cert: %w" [ArgErr (Some no_route)]
             = Errorf "building Docker client: %w" [ArgErr (Some inner)])
      \/ (exists dcl cert inner,
             trace_of (exec (scripted_world (only 1)) (NewCluster "ubuntu" []) 0%nat)
             = [Call NewClientWithOpts (dcl, None); Call GenerateCert (cert, Some inner)]
             /\ Errorf "generating TLS cert: %w" [ArgErr (Some no_route)]
                = Errorf "generating TLS cert: %w" [ArgErr (Some inner)])).
Proof.
  apply (@NewCluster_failure "ubuntu" [] nat (scripted_world (only 1)) 0%nat None
                             (Errorf "generating TLS cert: %w" [ArgErr (Some no_route)])).
  vm_compute. reflexivity.
Defined.

Lemma NewCluster_run_ok b tr oc :
  NewCluster_run b tr oc None ->
  exists c,
    oc = Some c
    /\ BaseImage c = b /\ Nodes c = [] /\ imagePulled c = false
    /\ String.length (ContainerPrefix c) = 6%nat
    /\ forallb in_chars (list_ascii_of_string (ContainerPrefix c)) = true
    /\ In (Call NewClientWithOpts (DockerClient_ c, None)) tr
    /\ In (Call GenerateCert (Cert c, None)) tr
    /\ List.length tr = 8%nat.
Proof.
  intros H. inversion H; subst. eexists. split; [reflexivity|]. simpl.
  repeat split; auto.
Qed.

(** X16: a [NewCluster(baseImage, opts...)] that returns a nil error
    returns a cluster for that image with no node, the image not yet
    marked pulled, the Docker client and the certificate set that the
    collaborators handed back, and a prefix of six characters of [chars];
    its node numbers are (vacuously) the positions.  It made eight calls,
    and the options play no part: with any other options the run is the
    same. *)
Theorem NewCluster_fresh (baseImage : string) (opts : list (Cluster -> Cluster))
        W (h : handler W) (w : W) (oc : option Cluster)
        (Hres : result_of (exec h (NewCluster baseImage opts) w) = Returns (oc, None)) :
  (exists c,
      oc = Some c
      /\ BaseImage c = baseImage /\ Nodes c = [] /\ imagePulled c = false
      /\ ids_ok c
      /\ String.length (ContainerPrefix c) = 6%nat
      /\ forallb in_chars (list_ascii_of_string (ContainerPrefix c)) = true
      /\ In (Call NewClientWithOpts (DockerClient_ c, None))
            (trace_of (exec h (NewCluster baseImage opts) w))
      /\ In (Call GenerateCert (Cert c, None))
            (trace_of (exec h (NewCluster baseImage opts) w))
      /\ List.length (trace_of (exec h (NewCluster baseImage opts) w)) = 8%nat)
  /\ forall opts', exec h (NewCluster baseImage opts') w
                   = exec h (NewCluster baseImage opts) w.
Proof.
  split; [|reflexivity].
  apply NewCluster_result, NewCluster_run_ok in Hres.
  destruct Hres as (c & -> & Hb & Hn & Hp & Hl & Hc & Hd & Hg & Ht).
  exists c. repeat split; auto. unfold ids_ok. now rewrite Hn.
Qed.

Lemma NewCluster_fresh_witness :
  (exists c,
      Some test_cluster = Some c
      /\ BaseImage c = "ubuntu" /\ Nodes c = [] /\ imagePulled c = false
      /\ ids_ok c
      /\ String.length (ContainerPrefix c) = 6%nat
      /\ forallb in_chars (list_ascii_of_string (ContainerPrefix c)) = true
      /\ In (Call NewClientWithOpts (DockerClient_ c, None))
            (trace_of (exec unreachable_world (NewCluster "ubuntu" []) 0%nat))
      /\ In (Call GenerateCert (Cert c, None))
            (trace_of (exec unreachable_world (NewCluster "ubuntu" []) 0%nat))
      /\ List.length (trace_of (exec unreachable_world (NewCluster "ubuntu" []) 0%nat))
         = 8%nat)
  /\ forall opts', exec unreachable_world (NewCluster "ubuntu" opts') 0%nat
                   = exec unreachable_world (NewCluster "ubuntu" []) 0%nat.
Proof.
  apply (@NewCluster_fresh "ubuntu" [] nat unreachable_world 0%nat (Some test_cluster)).
  vm_compute. reflexivity.
Defined.

End DockerMore.
